(** * PINE IPC client (pycsx2 / pinethon): a shallow embedding

    The Python class [Pine] of [src/pycsx2/pcsx2.py] talks to a running
    emulator over a local stream socket.  Its integers are Python [int]s
    (modelled as [Z]), its [bytes] values are lists of [Byte.byte], an
    exception is the [Err] branch of [Result], and the socket is an explicit
    transport script: whether [connect] and [sendall] succeed and what the
    successive [recv] calls return. *)

From Stdlib Require Import ZArith List Bool Lia.
From Stdlib Require Import Init.Byte Strings.Byte.
From Stdlib Require Strings.String.
Import ListNotations.
Open Scope Z_scope.

(** ** Exceptions and results *)

(** The exceptions the class raises, one constructor per [raise] site (or per
    built-in that raises on the path). *)
Inductive PyError : Type :=
| ValueError_slot          (* "Provided slot number is outside valid range" *)
| ValueError_data_size     (* "... is not a valid data size." *)
| OverflowError            (* int.to_bytes: negative, or too big to convert *)
| ConnectionError_lost     (* "Lost connection to PCSX2." *)
| TimeoutError_response    (* "Response timed out. ..." *)
| ConnectionError_invalid  (* "Invalid response from PCSX2." *)
| ConnectionError_failure  (* "Failure indicated in PCSX2 response." *)
| IndexError               (* result[4] on fewer than five bytes *)
| OSError_recv.            (* an OSError of recv that is no timeout *)

Inductive Result (A : Type) : Type :=
| Ok (a : A)
| Err (e : PyError).
Arguments Ok {A} a.
Arguments Err {A} e.

Definition bind {A B : Type} (r : Result A) (k : A -> Result B) : Result B :=
  match r with
  | Ok a => k a
  | Err e => Err e
  end.

Notation "x <- r ;; k" := (bind r (fun x => k))
  (at level 61, r at next level, right associativity).

Definition bytes : Type := list byte.

(** ** Class constants and enumerations *)

Definition MAX_IPC_SIZE : Z := 650000.
Definition MAX_IPC_RETURN_SIZE : Z := 450000.
Definition MAX_BATCH_REPLY_COUNT : Z := 50000.

Inductive IPCResult : Type := IPC_OK | IPC_FAIL.

Definition IPCResult_value (r : IPCResult) : Z :=
  match r with
  | IPC_OK => 0
  | IPC_FAIL => 255
  end.

Inductive IPCCommand : Type :=
| READ8 | READ16 | READ32 | READ64
| WRITE8 | WRITE16 | WRITE32 | WRITE64
| VERSION | SAVE_STATE | LOAD_STATE | TITLE | ID | UUID | GAME_VERSION
| STATUS | UNIMPLEMENTED.

Definition IPCCommand_value (c : IPCCommand) : Z :=
  match c with
  | READ8 => 0 | READ16 => 1 | READ32 => 2 | READ64 => 3
  | WRITE8 => 4 | WRITE16 => 5 | WRITE32 => 6 | WRITE64 => 7
  | VERSION => 8 | SAVE_STATE => 9 | LOAD_STATE => 10 | TITLE => 11
  | ID => 12 | UUID => 13 | GAME_VERSION => 14 | STATUS => 15
  | UNIMPLEMENTED => 255
  end.

Inductive DataSize : Type := INT8 | INT16 | INT32 | INT64.

Definition DataSize_value (d : DataSize) : Z :=
  match d with
  | INT8 => 1 | INT16 => 2 | INT32 => 4 | INT64 => 8
  end.

(** What a caller can pass as [data_size]: a member of [DataSize], or any
    other object (the [is] tests of [read] and [write] all fail on it). *)
Inductive SizeArg : Type :=
| Member (d : DataSize)
| NotAMember.

(** ** Bytes and integers *)

Definition byte_to_Z (b : byte) : Z := Z.of_N (Byte.to_N b).

Definition byte_of_Z (z : Z) : byte :=
  match Byte.of_N (Z.to_N (z mod 256)) with
  | Some b => b
  | None => x00
  end.

(** The [n] low bytes of [v], least significant first. *)
Fixpoint le_bytes (n : nat) (v : Z) : bytes :=
  match n with
  | O => []
  | S n' => byte_of_Z v :: le_bytes n' (v / 256)
  end.

(** [Pine.to_array]: [value.to_bytes(length=size, byteorder="little")], which
    is unsigned and raises [OverflowError] on a negative value and on one
    that does not fit in [size] bytes. *)
Definition to_array (value : Z) (size : Z) : Result bytes :=
  if (value <? 0) || (2 ^ (8 * size) <=? value)
  then Err OverflowError
  else Ok (le_bytes (Z.to_nat size) value).

(** [Pine.from_array]: [int.from_bytes(arr, byteorder="little")]; the [size]
    argument is not used by the body. *)
Fixpoint from_array (arr : bytes) (size : Z) : Z :=
  match arr with
  | [] => 0
  | b :: rest => byte_to_Z b + 256 * from_array rest size
  end.

(** [Pine._create_request]. *)
Definition _create_request (command : IPCCommand) (address : Z) (size : Z)
  : Result bytes :=
  ipc <- to_array size 4 ;;
  ipc1 <- to_array (IPCCommand_value command) 1 ;;
  ipc2 <- to_array address 4 ;;
  Ok ((ipc ++ ipc1) ++ ipc2).

(** ** The object and the transport *)

(** The socket object held in [self._sock]. *)
Inductive Handle : Type := Unset | Open | Closed.

Record Pine : Type := mkPine {
  _slot : Z;
  _sock : Handle;
  _sock_state : bool
}.

(** What one [self._sock.recv(4096)] does: it returns some bytes (none when
    the peer has closed), raises [TimeoutError], or raises another [OSError]
    (a connection reset by the peer, say), which the [except TimeoutError]
    around it does not catch and which leaves the call as it is. *)
Inductive RecvEvent : Type :=
| Chunk (response : bytes)
| TimedOut
| Raised.

(** The socket's behaviour during one call: the outcome of [connect] should
    [_init_socket] run (it succeeds or raises [socket.error]), the outcome of
    [sendall] on an open socket, and what the successive [recv] calls
    deliver.  A [recv] past the end of the script finds nothing to read and
    runs into the one-second socket timeout. *)
Record Transport : Type := mkTransport {
  connect_ok : bool;
  send_ok : bool;
  incoming : list RecvEvent
}.

(** What a call leaves behind: the object, the requests handed to [sendall],
    the [recv] events not consumed, and the value returned or the exception
    raised. *)
Record Call (A : Type) : Type := mkCall {
  self_after : Pine;
  sent : list bytes;
  unread : list RecvEvent;
  outcome : Result A
}.
Arguments mkCall {A} _ _ _ _.
Arguments self_after {A} _.
Arguments sent {A} _.
Arguments unread {A} _.
Arguments outcome {A} _.

(** ** The endpoint [_init_socket] connects to *)

Module Endpoint.
Import Stdlib.Strings.String.
Local Open Scope string_scope.

Inductive AddressFamily : Type := AF_INET | AF_UNIX.

(** The address handed to [connect]: a host and port pair, or a path. *)
Inductive SocketName : Type :=
| HostPort (host : string) (port : Z)
| Path (path : string).

(** [os.environ.get(key, default)]. *)
Definition environ_get (environ : string -> option string)
  (key default : string) : string :=
  match environ key with
  | Some value => value
  | None => default
  end.

(** The [if system() == ...] chain at the head of [_init_socket]: the socket
    family and name it settles on, given what [system()] returns and the
    process environment. *)
Definition socket_family_name (system : string)
  (environ : string -> option string) (self : Pine)
  : AddressFamily * SocketName :=
  if system =? "Windows" then
    (AF_INET, HostPort "127.0.0.1" (_slot self))
  else if system =? "Linux" then
    (AF_UNIX, Path (environ_get environ "XDG_RUNTIME_DIR" "/tmp" ++ "/pcsx2.sock"))
  else if system =? "Darwin" then
    (AF_UNIX, Path (environ_get environ "TMPDIR" "/tmp" ++ "/pcsx2.sock"))
  else
    (AF_UNIX, Path "/tmp/pcsx2.sock").

(** What [connect] does with the name before it connects: for an AF_INET
    name the socket module wants a port in 0..65535 and raises
    [OverflowError] ("connect(): port must be 0-65535.") on any other, an
    exception that is no [socket.error]. *)
Definition connect_overflows (name : SocketName) : bool :=
  match name with
  | HostPort _ port => ((port <? 0) || (65535 <? port))%Z
  | Path _ => false
  end.

End Endpoint.

Definition len (b : bytes) : Z := Z.of_nat (length b).

(** [Pine._init_socket], for a socket name that [connect] accepts: the [try]
    block leaves an open socket and sets the flag; the [except socket.error]
    handler closes the socket, clears the flag and returns.  (On a client
    that [__init__] returned the name is one [connect] accepts: the
    constructor itself has been through [connect] with it, and nothing
    changes the slot afterwards.) *)
Definition _init_socket (self : Pine) (tr : Transport) : Pine :=
  if connect_ok tr
  then mkPine (_slot self) Open true
  else mkPine (_slot self) Closed false.

(** [self._sock.sendall(request)] raises [socket.error] on a socket that is
    not open, and otherwise does what the transport says.  ([__init__] always
    runs [_init_socket], so no method ever meets an [Unset] socket.) *)
Definition sendall_ok (self : Pine) (tr : Transport) : bool :=
  match _sock self with
  | Open => send_ok tr
  | _ => false
  end.

(** The [except socket.error] handler around [sendall]. *)
Definition drop_connection (self : Pine) : Pine :=
  mkPine (_slot self) Closed false.

(** [Pine.__init__] of pycsx2, on a host where [system()] returns [system]
    and the environment is [environ]: the range check, then [_init_socket].
    There the [OverflowError] of [connect] on a port it does not accept is
    not among the exceptions the [try] catches, so it leaves
    [_init_socket] and the constructor. *)
Definition __init__ (system : String.string)
  (environ : String.string -> option String.string) (slot : Z)
  (tr : Transport) : Result Pine :=
  if negb ((0 <? slot) && (slot <=? 65536))
  then Err ValueError_slot
  else
    let self := mkPine slot Unset false in
    if Endpoint.connect_overflows
         (snd (Endpoint.socket_family_name system environ self))
    then Err OverflowError
    else Ok (_init_socket self tr).

(** ** [Pine.read] *)

Definition read_request (data_size : SizeArg) (address : Z) : Result bytes :=
  match data_size with
  | Member INT8 => _create_request READ8 address 9
  | Member INT16 => _create_request READ16 address 9
  | Member INT32 => _create_request READ32 address 9
  | Member INT64 => _create_request READ64 address 9
  | NotAMember => Err ValueError_data_size
  end.

(** The [while len(result) < end_length] loop of [read].  A [break] leaves
    the loop with the value [result] has at that point. *)
Fixpoint read_recv_loop (evs : list RecvEvent) (end_length : Z) (result : bytes)
  : list RecvEvent * Result bytes :=
  if len result <? end_length then
    match evs with
    | [] => ([], Err TimeoutError_response)
    | TimedOut :: evs' => (evs', Err TimeoutError_response)
    | Raised :: evs' => (evs', Err OSError_recv)
    | Chunk response :: evs' =>
        if len response <=? 0 then (evs', Ok [])
        else
          let result := result ++ response in
          if (end_length =? 4) && (4 <=? len response) then
            let end_length := from_array (firstn 4 result) 4 in
            if MAX_IPC_SIZE <? end_length then (evs', Ok [])
            else read_recv_loop evs' end_length result
          else read_recv_loop evs' end_length result
    end
  else (evs, Ok result).

(** The two checks after the loop of [read], and its [return result]. *)
Definition read_checks (result : bytes) : Result bytes :=
  if len result =? 0 then Err ConnectionError_invalid
  else
    match nth_error result 4 with
    | None => Err IndexError
    | Some status =>
        if byte_to_Z status =? IPCResult_value IPC_FAIL
        then Err ConnectionError_failure
        else Ok result
    end.

Definition read (self : Pine) (tr : Transport) (data_size : SizeArg)
  (address : Z) : Call bytes :=
  match read_request data_size address with
  | Err e => mkCall self [] (incoming tr) (Err e)
  | Ok request =>
      let self := if negb (_sock_state self) then _init_socket self tr
                  else self in
      if sendall_ok self tr then
        let (rest, looped) := read_recv_loop (incoming tr) 4 [] in
        mkCall self [request] rest (result <- looped ;; read_checks result)
      else
        mkCall (drop_connection self) [request] (incoming tr)
          (Err ConnectionError_lost)
  end.

(** ** [Pine.write] *)

Definition write_request (data_size : SizeArg) (address : Z) (data : Z)
  : Result bytes :=
  match data_size with
  | NotAMember => Err ValueError_data_size
  | Member d =>
      request <-
        match d with
        | INT8 => _create_request WRITE8 address (9 + DataSize_value d)
        | INT16 => _create_request WRITE16 address (9 + DataSize_value d)
        | INT32 => _create_request WRITE32 address (9 + DataSize_value d)
        | INT64 => _create_request WRITE64 address (9 + DataSize_value d)
        end ;;
      payload <- to_array data (DataSize_value d) ;;
      Ok (request ++ payload)
  end.

(** The [while] loop of [write], as written there. *)
Fixpoint write_recv_loop (evs : list RecvEvent) (end_length : Z) (result : bytes)
  : list RecvEvent * Result bytes :=
  if len result <? end_length then
    match evs with
    | [] => ([], Err TimeoutError_response)
    | TimedOut :: evs' => (evs', Err TimeoutError_response)
    | Raised :: evs' => (evs', Err OSError_recv)
    | Chunk response :: evs' =>
        if len response <=? 0 then (evs', Ok [])
        else
          let result := result ++ response in
          if (end_length =? 4) && (4 <=? len response) then
            let end_length := from_array (firstn 4 result) 4 in
            if MAX_IPC_SIZE <? end_length then (evs', Ok [])
            else write_recv_loop evs' end_length result
          else write_recv_loop evs' end_length result
    end
  else (evs, Ok result).

(** The two checks after the loop of [write]; the method then falls off its
    end and returns [None]. *)
Definition write_checks (result : bytes) : Result unit :=
  if len result =? 0 then Err ConnectionError_invalid
  else
    match nth_error result 4 with
    | None => Err IndexError
    | Some status =>
        if byte_to_Z status =? IPCResult_value IPC_FAIL
        then Err ConnectionError_failure
        else Ok tt
    end.

Definition write (self : Pine) (tr : Transport) (data_size : SizeArg)
  (address : Z) (data : Z) : Call unit :=
  match write_request data_size address data with
  | Err e => mkCall self [] (incoming tr) (Err e)
  | Ok request =>
      let self := if negb (_sock_state self) then _init_socket self tr
                  else self in
      if sendall_ok self tr then
        let (rest, looped) := write_recv_loop (incoming tr) 4 [] in
        mkCall self [request] rest (result <- looped ;; write_checks result)
      else
        mkCall (drop_connection self) [request] (incoming tr)
          (Err ConnectionError_lost)
  end.

(** ** The constructor of pinethon *)

Module Pinethon.

Record Pine : Type := mkPine {
  slot : Z;
  ret_buffer_len : Z;
  ipc_buffer_len : Z;
  batch_arg_place_len : Z
}.

(** [Pine.__init__] of [src/pinethon/pine.py]: the range check, then three
    zero-filled arrays of the class constants' lengths. *)
Definition __init__ (slot : Z) : Result Pine :=
  if negb ((0 <? slot) && (slot <=? 65536))
  then Err ValueError_slot
  else Ok (mkPine slot MAX_IPC_RETURN_SIZE MAX_IPC_SIZE MAX_BATCH_REPLY_COUNT).

End Pinethon.

(** ** Vocabulary of the properties *)

(** The opcode [read] and [write] pick for each width. *)
Definition read_command (d : DataSize) : IPCCommand :=
  match d with
  | INT8 => READ8 | INT16 => READ16 | INT32 => READ32 | INT64 => READ64
  end.

Definition write_command (d : DataSize) : IPCCommand :=
  match d with
  | INT8 => WRITE8 | INT16 => WRITE16 | INT32 => WRITE32 | INT64 => WRITE64
  end.

(** The wire layout of a request: a four-byte little-endian total size, one
    opcode byte, a four-byte little-endian address, then the payload. *)
Definition request_layout (request : bytes) (total_size : Z)
  (command : IPCCommand) (address : Z) (payload : bytes) : Prop :=
  exists size_field opcode address_field,
    request = size_field ++ [opcode] ++ address_field ++ payload /\
    len size_field = 4 /\ from_array size_field 4 = total_size /\
    byte_to_Z opcode = IPCCommand_value command /\
    len address_field = 4 /\ from_array address_field 4 = address.

(** Reading a request back, for the round-trip property (the client itself
    never decodes a request): the opcode byte at offset 4, the address that
    [from_array] reads at offsets 5..8, the payload bytes from offset 9 on. *)
Definition decode_request (request : bytes) : option (Z * Z * bytes) :=
  match nth_error request 4 with
  | Some opcode =>
      Some (byte_to_Z opcode,
            from_array (firstn 4 (skipn 5 request)) 4,
            skipn 9 request)
  | None => None
  end.

(** The payload of a response frame: what follows the four-byte length field
    and the status byte. *)
Definition frame_payload (frame : bytes) : bytes := skipn 5 frame.

(** The bytes a run of [recv] events delivers. *)
Fixpoint received (evs : list RecvEvent) : bytes :=
  match evs with
  | [] => []
  | Chunk response :: evs' => response ++ received evs'
  | TimedOut :: evs' => received evs'
  | Raised :: evs' => received evs'
  end.

(** The two states of the connection. *)
Definition Connected (self : Pine) : Prop :=
  _sock_state self = true /\ _sock self = Open.

Definition Disconnected (self : Pine) : Prop :=
  _sock_state self = false /\ _sock self <> Open.

(** A connected client on the default slot, and a transport on which
    [connect] and [sendall] succeed and [recv] delivers [evs]. *)
Definition connected_client : Pine := mkPine 28011 Open true.

Definition fresh_client : Pine := mkPine 28011 Unset false.

Definition healthy (evs : list RecvEvent) : Transport := mkTransport true true evs.

(** A well-formed response to a 32-bit read: declared length 9, status OK,
    four payload bytes. *)
Definition sample_frame : bytes :=
  [x09; x00; x00; x00; x00; xaa; xbb; xcc; xdd].

(** The start of a response whose length field declares [L] bytes, with
    status OK. *)
Definition frame_start (L : Z) : bytes := le_bytes 4 L ++ [x00].

(** The flag [_sock_state] and the socket agree: set with an open socket,
    cleared with a closed one. *)
Definition flag_matches_handle (self : Pine) : Prop :=
  _sock self = if _sock_state self then Open else Closed.

(** A run of [recv] results of one to three bytes each. *)
Definition short_chunks (evs : list RecvEvent) : Prop :=
  Forall (fun ev => exists c, ev = Chunk c /\ 0 < len c < 4) evs.

(** What an exception raised by a call tells about the call: an argument
    error leaves the client untouched and sends nothing; "Lost connection"
    leaves a closed socket and a cleared flag; every error of the receiving
    half, the exception of [recv] that nothing catches included, leaves the
    client connected, the request having been handed to [sendall]. *)
Definition error_effect {A : Type} (self : Pine) (c : Call A) (e : PyError)
  : Prop :=
  ((e = ValueError_data_size \/ e = OverflowError) /\
   self_after c = self /\ sent c = []) \/
  (e = ConnectionError_lost /\
   self_after c = mkPine (_slot self) Closed false /\
   exists request, sent c = [request]) \/
  ((e = TimeoutError_response \/ e = OSError_recv \/
    e = ConnectionError_invalid \/ e = ConnectionError_failure \/
    e = IndexError) /\
   Connected (self_after c) /\ _slot (self_after c) = _slot self /\
   exists request, sent c = [request]).

(** ** Bytes as numbers *)

Lemma byte_to_Z_range (b : byte) : 0 <= byte_to_Z b < 256.
Proof.
  unfold byte_to_Z. pose proof (Byte.to_N_bounded b). lia.
Qed.

Lemma byte_to_of_Z (z : Z) : byte_to_Z (byte_of_Z z) = z mod 256.
Proof.
  unfold byte_to_Z, byte_of_Z.
  pose proof (Z.mod_pos_bound z 256 ltac:(lia)) as Hm.
  destruct (Byte.of_N (Z.to_N (z mod 256))) as [b|] eqn:E.
  - apply Byte.to_of_N in E. rewrite E. lia.
  - apply Byte.of_N_None_iff in E. lia.
Qed.

Lemma byte_of_Z_mod (z : Z) : byte_of_Z (z mod 256) = byte_of_Z z.
Proof.
  unfold byte_of_Z. now rewrite Z.mod_mod by lia.
Qed.

Lemma byte_of_to_Z (b : byte) : byte_of_Z (byte_to_Z b) = b.
Proof.
  unfold byte_to_Z, byte_of_Z.
  pose proof (Byte.to_N_bounded b) as Hb.
  rewrite Z.mod_small by lia.
  now rewrite N2Z.id, Byte.of_to_N.
Qed.

Lemma byte_to_Z_inj (b c : byte) : byte_to_Z b = byte_to_Z c -> b = c.
Proof.
  intro H. rewrite <- (byte_of_to_Z b), <- (byte_of_to_Z c). now rewrite H.
Qed.

Lemma length_le_bytes (n : nat) (v : Z) : length (le_bytes n v) = n.
Proof.
  revert v. induction n as [|n IH]; intro v; simpl; [reflexivity|].
  now rewrite IH.
Qed.

Lemma len_le_bytes (n : nat) (v : Z) : len (le_bytes n v) = Z.of_nat n.
Proof.
  unfold len. now rewrite length_le_bytes.
Qed.

Lemma len_app (a b : bytes) : len (a ++ b) = len a + len b.
Proof.
  unfold len. rewrite length_app. lia.
Qed.

(** Reading back what [le_bytes] wrote gives the value modulo [256 ^ n]. *)
Lemma from_array_le_bytes (n : nat) (v size : Z) :
  from_array (le_bytes n v) size = v mod 256 ^ Z.of_nat n.
Proof.
  revert v. induction n as [|n IH]; intro v.
  - simpl. now rewrite Z.mod_1_r.
  - cbn [le_bytes from_array]. rewrite IH, byte_to_of_Z.
    rewrite Nat2Z.inj_succ, Z.pow_succ_r by lia.
    now rewrite Z.rem_mul_r by lia.
Qed.

Lemma from_array_range (arr : bytes) (size : Z) :
  0 <= from_array arr size < 256 ^ len arr.
Proof.
  unfold len. induction arr as [|b arr IH].
  - simpl. lia.
  - cbn [from_array length]. rewrite Nat2Z.inj_succ, Z.pow_succ_r by lia.
    pose proof (byte_to_Z_range b). lia.
Qed.

Lemma le_bytes_from_array (arr : bytes) (size : Z) :
  le_bytes (length arr) (from_array arr size) = arr.
Proof.
  induction arr as [|b arr IH]; [reflexivity|].
  cbn [length le_bytes from_array].
  pose proof (byte_to_Z_range b) as Hb.
  replace (byte_to_Z b + 256 * from_array arr size)
    with (byte_to_Z b + from_array arr size * 256) by lia.
  f_equal.
  - rewrite <- byte_of_Z_mod, Z.mod_add, Z.mod_small by lia.
    apply byte_of_to_Z.
  - rewrite Z.div_add, Z.div_small by lia. exact IH.
Qed.

Lemma pow_256 (n : Z) : 0 <= n -> 256 ^ n = 2 ^ (8 * n).
Proof.
  intro Hn. change 256 with (2 ^ 8). now rewrite <- Z.pow_mul_r by lia.
Qed.

(** [to_array] succeeds exactly on the values that fit. *)
Lemma to_array_fits (value size : Z) :
  0 <= value < 2 ^ (8 * size) ->
  to_array value size = Ok (le_bytes (Z.to_nat size) value).
Proof.
  intros [Hlo Hhi]. unfold to_array.
  destruct (value <? 0) eqn:E1; [apply Z.ltb_lt in E1; lia|].
  destruct (2 ^ (8 * size) <=? value) eqn:E2; [apply Z.leb_le in E2; lia|].
  reflexivity.
Qed.

Lemma to_array_overflow (value size : Z) :
  value < 0 \/ 2 ^ (8 * size) <= value ->
  to_array value size = Err OverflowError.
Proof.
  intros H. unfold to_array.
  destruct (value <? 0) eqn:E1; [reflexivity|].
  destruct (2 ^ (8 * size) <=? value) eqn:E2; [reflexivity|].
  apply Z.ltb_ge in E1. apply Z.leb_gt in E2. lia.
Qed.

Lemma to_array_ok_inv (value size : Z) (arr : bytes) :
  to_array value size = Ok arr ->
  0 <= value < 2 ^ (8 * size) /\ arr = le_bytes (Z.to_nat size) value.
Proof.
  unfold to_array.
  destruct (value <? 0) eqn:E1; [discriminate|].
  destruct (2 ^ (8 * size) <=? value) eqn:E2; [discriminate|].
  apply Z.ltb_ge in E1. apply Z.leb_gt in E2.
  cbn [orb]. intro H. injection H as <-. split; [lia | reflexivity].
Qed.

(** ** The request encoder *)

Lemma create_request_ok (command : IPCCommand) (address size : Z) :
  0 <= size < 2 ^ 32 ->
  0 <= address < 2 ^ 32 ->
  _create_request command address size =
    Ok ((le_bytes 4 size ++ [byte_of_Z (IPCCommand_value command)])
          ++ le_bytes 4 address).
Proof.
  intros Hs Ha. unfold _create_request.
  rewrite (to_array_fits size 4) by exact Hs.
  rewrite (to_array_fits (IPCCommand_value command) 1)
    by (destruct command; cbn; lia).
  rewrite (to_array_fits address 4) by exact Ha.
  reflexivity.
Qed.

Lemma command_byte (command : IPCCommand) :
  byte_to_Z (byte_of_Z (IPCCommand_value command)) = IPCCommand_value command.
Proof.
  rewrite byte_to_of_Z. apply Z.mod_small. destruct command; cbn; lia.
Qed.

Lemma IPCCommand_value_inj (c c' : IPCCommand) :
  IPCCommand_value c = IPCCommand_value c' -> c = c'.
Proof.
  destruct c, c'; cbn; intro H; first [reflexivity | discriminate H].
Qed.

Lemma header_layout (command : IPCCommand) (address size : Z) (payload : bytes) :
  0 <= size < 2 ^ 32 ->
  0 <= address < 2 ^ 32 ->
  request_layout
    (((le_bytes 4 size ++ [byte_of_Z (IPCCommand_value command)])
        ++ le_bytes 4 address) ++ payload)
    size command address payload.
Proof.
  intros Hs Ha.
  exists (le_bytes 4 size), (byte_of_Z (IPCCommand_value command)),
    (le_bytes 4 address).
  split; [now rewrite <- !app_assoc|].
  split; [apply len_le_bytes|].
  split; [rewrite from_array_le_bytes; apply Z.mod_small; exact Hs|].
  split; [apply command_byte|].
  split; [apply len_le_bytes|].
  rewrite from_array_le_bytes. apply Z.mod_small. exact Ha.
Qed.

Lemma DataSize_value_pos (d : DataSize) : 1 <= DataSize_value d <= 8.
Proof. destruct d; cbn; lia. Qed.

Lemma read_request_ok (d : DataSize) (address : Z) :
  0 <= address < 2 ^ 32 ->
  read_request (Member d) address =
    Ok ((le_bytes 4 9 ++ [byte_of_Z (IPCCommand_value (read_command d))])
          ++ le_bytes 4 address).
Proof.
  intro Ha. destruct d; cbn [read_request read_command];
    apply create_request_ok; solve [exact Ha | lia].
Qed.

Lemma write_request_ok (d : DataSize) (address data : Z) :
  0 <= address < 2 ^ 32 ->
  0 <= data < 2 ^ (8 * DataSize_value d) ->
  write_request (Member d) address data =
    Ok (((le_bytes 4 (9 + DataSize_value d)
            ++ [byte_of_Z (IPCCommand_value (write_command d))])
           ++ le_bytes 4 address)
          ++ le_bytes (Z.to_nat (DataSize_value d)) data).
Proof.
  intros Ha Hd. unfold write_request.
  rewrite (to_array_fits data _ Hd).
  destruct d; cbn [write_command];
    rewrite create_request_ok by solve [exact Ha | cbn; lia]; reflexivity.
Qed.

(** C6.  Every request is the four-byte little-endian total size, the opcode
    byte and the four-byte little-endian address, in that order; [read]
    passes 9 as the total size and appends nothing, [write] passes 9 plus the
    width and appends the value in exactly that many bytes, so that the
    total size is the length of what is sent. *)
Theorem request_encoding :
  forall (d : DataSize) (address data : Z),
    0 <= address < 2 ^ 32 ->
    0 <= data < 2 ^ (8 * DataSize_value d) ->
    (forall (command : IPCCommand) (size : Z), 0 <= size < 2 ^ 32 ->
       exists header,
         _create_request command address size = Ok header /\
         request_layout header size command address [] /\
         len header = 9) /\
    (exists request,
       read_request (Member d) address = Ok request /\
       request_layout request 9 (read_command d) address [] /\
       len request = 9) /\
    (exists request payload,
       write_request (Member d) address data = Ok request /\
       request_layout request (9 + DataSize_value d) (write_command d)
         address payload /\
       len payload = DataSize_value d /\
       from_array payload (DataSize_value d) = data /\
       len request = 9 + DataSize_value d).
Proof.
  intros d address data Ha Hd. split; [|split].
  - intros command size Hs. eexists. split; [now apply create_request_ok|].
    split.
    + rewrite <- (app_nil_r (_ ++ le_bytes 4 address)).
      now apply header_layout.
    + rewrite !len_app, !len_le_bytes. reflexivity.
  - eexists. split; [now apply read_request_ok|]. split.
    + rewrite <- (app_nil_r (_ ++ le_bytes 4 address)).
      apply header_layout; [lia | exact Ha].
    + rewrite !len_app, !len_le_bytes. reflexivity.
  - pose proof (DataSize_value_pos d) as Hw.
    eexists. exists (le_bytes (Z.to_nat (DataSize_value d)) data).
    split; [now apply write_request_ok|]. split; [|split; [|split]].
    + apply header_layout; [lia | exact Ha].
    + rewrite len_le_bytes. lia.
    + rewrite from_array_le_bytes, Z2Nat.id, pow_256 by lia.
      now apply Z.mod_small.
    + rewrite !len_app, !len_le_bytes. unfold len. cbn [length]. lia.
Qed.

Lemma request_encoding_witness :
  0 <= 1048576 < 2 ^ 32 /\
  0 <= 513 < 2 ^ (8 * DataSize_value INT16) /\
  (exists request,
     read_request (Member INT16) 1048576 = Ok request /\
     request_layout request 9 (read_command INT16) 1048576 [] /\
     len request = 9) /\
  (exists request payload,
     write_request (Member INT16) 1048576 513 = Ok request /\
     request_layout request (9 + DataSize_value INT16) (write_command INT16)
       1048576 payload /\
     len payload = DataSize_value INT16 /\
     from_array payload (DataSize_value INT16) = 513 /\
     len request = 9 + DataSize_value INT16).
Proof.
  split; [cbn; lia|]. split; [cbn; lia|].
  apply (request_encoding INT16 1048576 513); cbn; lia.
Defined.

(** ** Round trip of the request encoding *)

Lemma decode_header (command : IPCCommand) (address size : Z) (payload : bytes) :
  0 <= address < 2 ^ 32 ->
  decode_request
    (((le_bytes 4 size ++ [byte_of_Z (IPCCommand_value command)])
        ++ le_bytes 4 address) ++ payload)
  = Some (IPCCommand_value command, address, payload).
Proof.
  intro Ha. unfold decode_request.
  cbn [le_bytes app nth_error skipn firstn].
  rewrite command_byte.
  change (firstn 0 payload) with (@nil byte).
  change [byte_of_Z address; byte_of_Z (address / 256);
          byte_of_Z (address / 256 / 256);
          byte_of_Z (address / 256 / 256 / 256)]
    with (le_bytes 4 address).
  rewrite from_array_le_bytes, Z.mod_small by exact Ha.
  reflexivity.
Qed.

(** C7.  Decoding an encoded request gives back the opcode, the address and
    the payload bytes: for every command and payload appended to its header,
    and for the requests [read] and [write] build, whose payload in turn
    reads back as the value written.  The opcode determines the command. *)
Theorem request_round_trip :
  forall (d : DataSize) (address data : Z),
    0 <= address < 2 ^ 32 ->
    0 <= data < 2 ^ (8 * DataSize_value d) ->
    (forall (command : IPCCommand) (size : Z) (payload : bytes),
       0 <= size < 2 ^ 32 ->
       exists header,
         _create_request command address size = Ok header /\
         decode_request (header ++ payload)
           = Some (IPCCommand_value command, address, payload)) /\
    (exists request,
       read_request (Member d) address = Ok request /\
       decode_request request
         = Some (IPCCommand_value (read_command d), address, [])) /\
    (exists request payload,
       write_request (Member d) address data = Ok request /\
       to_array data (DataSize_value d) = Ok payload /\
       decode_request request
         = Some (IPCCommand_value (write_command d), address, payload) /\
       from_array payload (DataSize_value d) = data) /\
    (forall c c' : IPCCommand,
       IPCCommand_value c = IPCCommand_value c' -> c = c').
Proof.
  intros d address data Ha Hd. split; [|split; [|split]].
  - intros command size payload Hs. eexists.
    split; [now apply create_request_ok|]. now apply decode_header.
  - eexists. split; [now apply read_request_ok|].
    rewrite <- (app_nil_r (_ ++ le_bytes 4 address)).
    now apply decode_header.
  - pose proof (DataSize_value_pos d) as Hw.
    eexists. eexists. split; [now apply write_request_ok|].
    split; [now apply to_array_fits|].
    split; [now apply decode_header|].
    rewrite from_array_le_bytes, Z2Nat.id, pow_256 by lia.
    now apply Z.mod_small.
  - exact IPCCommand_value_inj.
Qed.

Lemma request_round_trip_witness :
  0 <= 2097152 < 2 ^ 32 /\
  0 <= 3735928559 < 2 ^ (8 * DataSize_value INT32) /\
  (exists request payload,
     write_request (Member INT32) 2097152 3735928559 = Ok request /\
     to_array 3735928559 (DataSize_value INT32) = Ok payload /\
     decode_request request
       = Some (IPCCommand_value (write_command INT32), 2097152, payload) /\
     from_array payload (DataSize_value INT32) = 3735928559).
Proof.
  split; [cbn; lia|]. split; [cbn; lia|].
  apply (request_round_trip INT32 2097152 3735928559); cbn; lia.
Defined.

(** ** The payload of [write] *)

(** C8, as stated, fails: the value 256 does not fit in the one byte of an
    INT8 write, and [to_array] raises rather than keeping 256 mod 2^8 = 0;
    the call ends there, before anything is sent. *)
Lemma write_truncates_counterexample :
  to_array 256 (DataSize_value INT8) = Err OverflowError /\
  outcome (write connected_client (healthy []) (Member INT8) 0 256)
    = Err OverflowError /\
  sent (write connected_client (healthy []) (Member INT8) 0 256) = [] /\
  ~ (exists request,
       write_request (Member INT8) 0 256 = Ok request /\
       skipn 9 request = le_bytes 1 (256 mod 2 ^ 8)).
Proof.
  split; [reflexivity|]. split; [reflexivity|]. split; [reflexivity|].
  intros [request [H _]]. discriminate H.
Qed.

(** C8, amended.  A value that fits the width is encoded as exactly that
    many little-endian bytes (and a value that fits is its own remainder
    modulo 2^(8w)); a negative value or one that does not fit makes the
    payload encoding raise [OverflowError] and the call sends nothing. *)
Theorem write_payload_encoding :
  forall (self : Pine) (tr : Transport) (d : DataSize) (address data : Z),
    0 <= address < 2 ^ 32 ->
    (0 <= data < 2 ^ (8 * DataSize_value d) ->
       exists request,
         write_request (Member d) address data = Ok request /\
         sent (write self tr (Member d) address data) = [request] /\
         skipn 9 request = le_bytes (Z.to_nat (DataSize_value d)) data /\
         len (skipn 9 request) = DataSize_value d /\
         from_array (skipn 9 request) (DataSize_value d)
           = data mod 2 ^ (8 * DataSize_value d) /\
         data mod 2 ^ (8 * DataSize_value d) = data) /\
    (data < 0 \/ 2 ^ (8 * DataSize_value d) <= data ->
       write_request (Member d) address data = Err OverflowError /\
       outcome (write self tr (Member d) address data) = Err OverflowError /\
       sent (write self tr (Member d) address data) = []).
Proof.
  intros self tr d address data Ha.
  pose proof (DataSize_value_pos d) as Hw. split.
  - intro Hd. eexists. split; [now apply write_request_ok|].
    assert (Hmod : data mod 2 ^ (8 * DataSize_value d) = data)
      by now apply Z.mod_small.
    split; [|split; [|split; [|split]]].
    + unfold write. rewrite write_request_ok by assumption.
      destruct (sendall_ok _ tr); [|reflexivity].
      destruct (write_recv_loop _ _ _). reflexivity.
    + reflexivity.
    + cbn [le_bytes app skipn]. rewrite len_le_bytes. lia.
    + cbn [le_bytes app skipn].
      rewrite from_array_le_bytes, Z2Nat.id, pow_256 by lia. reflexivity.
    + exact Hmod.
  - intro Hd.
    assert (Hw' : write_request (Member d) address data = Err OverflowError).
    { unfold write_request.
      rewrite (to_array_overflow data _ Hd).
      destruct d; rewrite create_request_ok by solve [exact Ha | cbn; lia];
        reflexivity. }
    split; [exact Hw'|]. unfold write. rewrite Hw'. split; reflexivity.
Qed.

Lemma write_payload_encoding_witness :
  0 <= 1048576 < 2 ^ 32 /\
  0 <= 255 < 2 ^ (8 * DataSize_value INT8) /\
  (256 < 0 \/ 2 ^ (8 * DataSize_value INT8) <= 256) /\
  (exists request,
     write_request (Member INT8) 1048576 255 = Ok request /\
     sent (write connected_client (healthy []) (Member INT8) 1048576 255)
       = [request] /\
     skipn 9 request = le_bytes (Z.to_nat (DataSize_value INT8)) 255 /\
     len (skipn 9 request) = DataSize_value INT8 /\
     from_array (skipn 9 request) (DataSize_value INT8)
       = 255 mod 2 ^ (8 * DataSize_value INT8) /\
     255 mod 2 ^ (8 * DataSize_value INT8) = 255) /\
  write_request (Member INT8) 1048576 256 = Err OverflowError.
Proof.
  split; [cbn; lia|]. split; [cbn; lia|]. split; [right; cbn; lia|]. split.
  - apply (write_payload_encoding connected_client (healthy []) INT8
             1048576 255); cbn; lia.
  - apply (write_payload_encoding connected_client (healthy []) INT8
             1048576 256); [cbn; lia | right; cbn; lia].
Defined.

(** ** The receive loop *)

Lemma read_recv_loop_eq (evs : list RecvEvent) (end_length : Z) (result : bytes) :
  read_recv_loop evs end_length result =
  if len result <? end_length then
    match evs with
    | [] => ([], Err TimeoutError_response)
    | TimedOut :: evs' => (evs', Err TimeoutError_response)
    | Raised :: evs' => (evs', Err OSError_recv)
    | Chunk response :: evs' =>
        if len response <=? 0 then (evs', Ok [])
        else
          if (end_length =? 4) && (4 <=? len response) then
            if MAX_IPC_SIZE <? from_array (firstn 4 (result ++ response)) 4
            then (evs', Ok [])
            else read_recv_loop evs'
                   (from_array (firstn 4 (result ++ response)) 4)
                   (result ++ response)
          else read_recv_loop evs' end_length (result ++ response)
    end
  else (evs, Ok result).
Proof. destruct evs; reflexivity. Qed.

(** The loops of [read] and of [write] are the same function. *)
Lemma recv_loops_agree (evs : list RecvEvent) :
  forall (end_length : Z) (result : bytes),
    read_recv_loop evs end_length result = write_recv_loop evs end_length result.
Proof.
  induction evs as [|ev evs IH]; intros end_length result.
  - reflexivity.
  - cbn [read_recv_loop write_recv_loop].
    destruct (len result <? end_length); [|reflexivity].
    destruct ev as [response| |]; [|reflexivity|reflexivity].
    destruct (len response <=? 0); [reflexivity|].
    destruct ((end_length =? 4) && (4 <=? len response)).
    + destruct (MAX_IPC_SIZE <? _); [reflexivity | apply IH].
    + apply IH.
Qed.

(** A loop that ends normally either broke out with the empty result or holds
    everything the consumed [recv] calls delivered, in order. *)
Lemma read_recv_loop_accumulates (evs : list RecvEvent) :
  forall (end_length : Z) (result : bytes) (rest : list RecvEvent) (res : bytes),
    read_recv_loop evs end_length result = (rest, Ok res) ->
    res = [] \/
    exists consumed,
      evs = consumed ++ rest /\ res = result ++ received consumed.
Proof.
  induction evs as [|ev evs IH]; intros end_length result rest res;
    rewrite read_recv_loop_eq.
  - destruct (len result <? end_length); [discriminate|].
    intro H. injection H as <- <-. right. exists [].
    split; [reflexivity | cbn [received]; now rewrite app_nil_r].
  - destruct (len result <? end_length).
    + destruct ev as [response| |]; [|discriminate|discriminate].
      destruct (len response <=? 0).
      { intro H. injection H as _ <-. now left. }
      assert (Hstep : forall e,
                 read_recv_loop evs e (result ++ response) = (rest, Ok res) ->
                 res = [] \/
                 exists consumed,
                   Chunk response :: evs = consumed ++ rest /\
                   res = result ++ received consumed).
      { intros e He. apply IH in He as [-> | [consumed [-> ->]]];
          [now left|]. right. exists (Chunk response :: consumed).
        split; [reflexivity|]. cbn [received]. now rewrite app_assoc. }
      destruct ((end_length =? 4) && (4 <=? len response)).
      * destruct (MAX_IPC_SIZE <? _).
        -- intro H. injection H as _ <-. now left.
        -- apply Hstep.
      * apply Hstep.
    + intro H. injection H as <- <-. right. exists [].
      split; [reflexivity | cbn [received]; now rewrite app_nil_r].
Qed.

Lemma read_checks_ok_inv (res result : bytes) :
  read_checks res = Ok result ->
  result = res /\
  exists status,
    nth_error res 4 = Some status /\
    byte_to_Z status <> IPCResult_value IPC_FAIL.
Proof.
  unfold read_checks. destruct (len res =? 0); [discriminate|].
  destruct (nth_error res 4) as [status|]; [|discriminate].
  destruct (byte_to_Z status =? IPCResult_value IPC_FAIL) eqn:E;
    [discriminate|].
  intro H. injection H as <-. split; [reflexivity|].
  exists status. split; [reflexivity|]. now apply Z.eqb_neq.
Qed.

Lemma nth_error_4_split (res : bytes) (status : byte) :
  nth_error res 4 = Some status ->
  res = firstn 4 res ++ [status] ++ skipn 5 res /\ 5 <= len res.
Proof.
  destruct res as [|b0 [|b1 [|b2 [|b3 [|b4 tl]]]]]; try discriminate.
  cbn [nth_error]. intro H. injection H as ->. split; [reflexivity|].
  unfold len. cbn [length]. lia.
Qed.

(** What [read] and [write] do once the request is built, on a connected
    client whose [sendall] succeeds. *)
Lemma read_on_connected (self : Pine) (tr : Transport) (ds : SizeArg)
  (address : Z) (request : bytes) :
  read_request ds address = Ok request ->
  Connected self ->
  send_ok tr = true ->
  read self tr ds address =
    mkCall self [request] (fst (read_recv_loop (incoming tr) 4 []))
      (result <- snd (read_recv_loop (incoming tr) 4 []) ;; read_checks result).
Proof.
  intros Hreq [Hstate Hsock] Hsend. unfold read. rewrite Hreq, Hstate.
  cbn [negb]. unfold sendall_ok. rewrite Hsock, Hsend.
  now destruct (read_recv_loop (incoming tr) 4 []).
Qed.

Lemma write_on_connected (self : Pine) (tr : Transport) (ds : SizeArg)
  (address data : Z) (request : bytes) :
  write_request ds address data = Ok request ->
  Connected self ->
  send_ok tr = true ->
  write self tr ds address data =
    mkCall self [request] (fst (write_recv_loop (incoming tr) 4 []))
      (result <- snd (write_recv_loop (incoming tr) 4 []) ;; write_checks result).
Proof.
  intros Hreq [Hstate Hsock] Hsend. unfold write. rewrite Hreq, Hstate.
  cbn [negb]. unfold sendall_ok. rewrite Hsock, Hsend.
  now destruct (write_recv_loop (incoming tr) 4 []).
Qed.

(** ** What [read] returns *)

(** C3, as stated, fails: on a nine-byte response delivered whole, [read]
    returns all nine bytes, not the four payload bytes. *)
Lemma read_returns_payload_counterexample :
  outcome (read connected_client (healthy [Chunk sample_frame]) (Member INT32) 0)
    = Ok sample_frame /\
  frame_payload sample_frame = [xaa; xbb; xcc; xdd] /\
  outcome (read connected_client (healthy [Chunk sample_frame]) (Member INT32) 0)
    <> Ok (frame_payload sample_frame).
Proof.
  split; [reflexivity|]. split; [reflexivity|]. discriminate.
Qed.

(** C3, amended.  A successful [read] returns the whole accumulated response:
    everything the consumed [recv] calls delivered, that is the four-byte
    length field, the status byte and then the payload.  The payload is what
    the returned bytes hold from offset 5 on. *)
Theorem read_returns_whole_response :
  forall (self : Pine) (tr : Transport) (ds : SizeArg) (address : Z)
         (result : bytes),
    outcome (read self tr ds address) = Ok result ->
    exists consumed status,
      incoming tr = consumed ++ unread (read self tr ds address) /\
      result = received consumed /\
      result = firstn 4 result ++ [status] ++ frame_payload result /\
      byte_to_Z status <> IPCResult_value IPC_FAIL /\
      len result = 5 + len (frame_payload result) /\
      result <> frame_payload result.
Proof.
  intros self tr ds address result. unfold read.
  destruct (read_request ds address) as [request|]; [|discriminate].
  destruct (sendall_ok _ tr); [|discriminate].
  destruct (read_recv_loop (incoming tr) 4 []) as [rest looped] eqn:Hloop.
  cbn [outcome unread].
  destruct looped as [res|]; [|discriminate]. cbn [bind]. intro Hchk.
  apply read_checks_ok_inv in Hchk as [-> [status [Hnth Hstatus]]].
  apply read_recv_loop_accumulates in Hloop as [-> | [consumed [Hevs Hres]]];
    [discriminate Hnth|].
  exists consumed, status. cbn [app] in Hres.
  destruct (nth_error_4_split _ _ Hnth) as [Hsplit Hlen].
  assert (Hpay : len res = 5 + len (frame_payload res)).
  { unfold frame_payload, len in *. rewrite length_skipn. lia. }
  repeat (split; [assumption|]).
  intro Heq. rewrite <- Heq in Hpay. lia.
Qed.

Lemma read_returns_whole_response_witness :
  outcome (read connected_client (healthy [Chunk sample_frame]) (Member INT32) 0)
    = Ok sample_frame /\
  exists consumed status,
    incoming (healthy [Chunk sample_frame]) =
      consumed ++ unread (read connected_client (healthy [Chunk sample_frame])
                            (Member INT32) 0) /\
    sample_frame = received consumed /\
    sample_frame = firstn 4 sample_frame ++ [status] ++ frame_payload sample_frame /\
    byte_to_Z status <> IPCResult_value IPC_FAIL /\
    len sample_frame = 5 + len (frame_payload sample_frame) /\
    sample_frame <> frame_payload sample_frame.
Proof.
  split; [reflexivity|].
  apply (read_returns_whole_response connected_client
           (healthy [Chunk sample_frame]) (Member INT32) 0 sample_frame).
  reflexivity.
Defined.

(** ** The status byte *)

(** C4, as stated, fails: a five-byte response whose status byte is 1, which
    is not OK, makes neither [read] nor [write] fail. *)
Lemma status_not_ok_counterexample :
  byte_to_Z x01 <> IPCResult_value IPC_OK /\
  outcome (read connected_client (healthy [Chunk [x05; x00; x00; x00; x01]])
             (Member INT8) 0)
    = Ok [x05; x00; x00; x00; x01] /\
  outcome (write connected_client (healthy [Chunk [x05; x00; x00; x00; x01]])
             (Member INT8) 0 7)
    = Ok tt.
Proof.
  split; [discriminate|]. split; reflexivity.
Qed.

(** C4, amended.  Once the loop has assembled a response of at least five
    bytes, [read] and [write] fail with the peer-reported failure exactly
    when the status byte at offset 4 is FAIL (0xFF), returning no payload;
    with any other status byte, OK included, [read] returns the response and
    [write] returns. *)
Theorem status_byte_gate :
  forall (self : Pine) (tr : Transport) (ds : SizeArg) (address data : Z)
         (rq wq : bytes) (rest : list RecvEvent) (frame : bytes) (status : byte),
    Connected self ->
    send_ok tr = true ->
    read_request ds address = Ok rq ->
    write_request ds address data = Ok wq ->
    read_recv_loop (incoming tr) 4 [] = (rest, Ok frame) ->
    nth_error frame 4 = Some status ->
    (status = xff ->
       outcome (read self tr ds address) = Err ConnectionError_failure /\
       outcome (write self tr ds address data) = Err ConnectionError_failure) /\
    (status <> xff ->
       outcome (read self tr ds address) = Ok frame /\
       outcome (write self tr ds address data) = Ok tt).
Proof.
  intros self tr ds address data rq wq rest frame status
    Hconn Hsend Hrq Hwq Hloop Hnth.
  rewrite (read_on_connected _ _ _ _ _ Hrq Hconn Hsend).
  rewrite (write_on_connected _ _ _ _ _ _ Hwq Hconn Hsend).
  rewrite <- (recv_loops_agree (incoming tr) 4 []), Hloop.
  cbn [outcome snd bind].
  unfold read_checks, write_checks. rewrite Hnth.
  destruct (nth_error_4_split _ _ Hnth) as [_ Hlen].
  destruct (len frame =? 0) eqn:E0; [apply Z.eqb_eq in E0; lia|].
  split.
  - intros ->. now split.
  - intro Hne.
    destruct (byte_to_Z status =? IPCResult_value IPC_FAIL) eqn:E;
      [|now split].
    apply Z.eqb_eq in E. exfalso. apply Hne.
    apply byte_to_Z_inj. exact E.
Qed.

Lemma status_byte_gate_witness :
  Connected connected_client /\
  send_ok (healthy [Chunk [x05; x00; x00; x00; xff]]) = true /\
  read_request (Member INT8) 0 = Ok (le_bytes 4 9 ++ [x00] ++ le_bytes 4 0) /\
  write_request (Member INT8) 0 7
    = Ok (le_bytes 4 10 ++ [x04] ++ le_bytes 4 0 ++ [x07]) /\
  read_recv_loop (incoming (healthy [Chunk [x05; x00; x00; x00; xff]])) 4 []
    = ([], Ok [x05; x00; x00; x00; xff]) /\
  nth_error [x05; x00; x00; x00; xff] 4 = Some xff /\
  outcome (read connected_client (healthy [Chunk [x05; x00; x00; x00; xff]])
             (Member INT8) 0)
    = Err ConnectionError_failure.
Proof.
  split; [split; reflexivity|]. do 5 (split; [reflexivity|]).
  refine (proj1 (proj1 (status_byte_gate connected_client
            (healthy [Chunk [x05; x00; x00; x00; xff]]) (Member INT8) 0 7
            _ _ [] [x05; x00; x00; x00; xff] xff
            (conj eq_refl eq_refl) eq_refl eq_refl eq_refl eq_refl eq_refl)
          eq_refl)).
Defined.

(** ** Steps of the receive loop *)

(** A first chunk of at least four bytes has its length field decoded and
    compared with [MAX_IPC_SIZE]. *)
Lemma header_chunk_step (c : bytes) (evs : list RecvEvent) :
  4 <= len c ->
  read_recv_loop (Chunk c :: evs) 4 [] =
    if MAX_IPC_SIZE <? from_array (firstn 4 c) 4
    then (evs, Ok [])
    else read_recv_loop evs (from_array (firstn 4 c) 4) c.
Proof.
  intro Hc. rewrite read_recv_loop_eq. cbn [app len length Z.of_nat].
  change (0 <? 4) with true. cbv iota.
  destruct (len c <=? 0) eqn:E0; [apply Z.leb_le in E0; lia|].
  apply Z.leb_le in Hc. rewrite Hc. reflexivity.
Qed.

(** A chunk shorter than four bytes never has the length field decoded, even
    when it completes the first four bytes of the accumulator. *)
Lemma short_chunk_step (c : bytes) (evs : list RecvEvent) (end_length : Z)
  (result : bytes) :
  len result < end_length ->
  0 < len c < 4 ->
  read_recv_loop (Chunk c :: evs) end_length result =
    read_recv_loop evs end_length (result ++ c).
Proof.
  intros Hr Hc. rewrite read_recv_loop_eq.
  apply Z.ltb_lt in Hr. rewrite Hr.
  destruct (len c <=? 0) eqn:E0; [apply Z.leb_le in E0; lia|].
  destruct (4 <=? len c) eqn:E4; [apply Z.leb_le in E4; lia|].
  now rewrite andb_false_r.
Qed.

(** The chunk that carries the accumulator to four bytes and has four bytes
    itself: the length field is decoded from the accumulated bytes. *)
Lemma decode_step (c : bytes) (evs : list RecvEvent) (result : bytes) :
  len result < 4 ->
  4 <= len c ->
  read_recv_loop (Chunk c :: evs) 4 result =
    if MAX_IPC_SIZE <? from_array (firstn 4 (result ++ c)) 4
    then (evs, Ok [])
    else read_recv_loop evs (from_array (firstn 4 (result ++ c)) 4)
           (result ++ c).
Proof.
  intros Hr Hc. rewrite read_recv_loop_eq.
  apply Z.ltb_lt in Hr. rewrite Hr.
  destruct (len c <=? 0) eqn:E0; [apply Z.leb_le in E0; lia|].
  apply Z.leb_le in Hc. now rewrite Hc.
Qed.

(** A run of short chunks that leaves fewer than four bytes accumulated is
    taken in whole, the end length staying 4. *)
Lemma short_chunks_step (pre : list RecvEvent) :
  forall (rest : list RecvEvent) (result : bytes),
    short_chunks pre ->
    len (result ++ received pre) < 4 ->
    read_recv_loop (pre ++ rest) 4 result
      = read_recv_loop rest 4 (result ++ received pre).
Proof.
  induction pre as [|ev pre IH]; intros rest result Hshort Hlen.
  - cbn [app received]. now rewrite app_nil_r.
  - inversion Hshort as [|ev' pre' [c [-> Hc]] Hshort']; subst.
    cbn [received] in *. rewrite app_assoc in Hlen.
    assert (Hr : len result < 4).
    { rewrite !len_app in Hlen. unfold len in Hlen, Hc |- *.
      pose proof (Nat2Z.is_nonneg (length (received pre))). lia. }
    cbn [app]. rewrite (short_chunk_step _ _ _ _ Hr Hc).
    rewrite (IH _ _ Hshort' Hlen). now rewrite app_assoc.
Qed.

(** What the loop consumed, and how it ended when the last [recv] it made
    returned no bytes. *)
Lemma read_recv_loop_trace (evs : list RecvEvent) :
  forall (end_length : Z) (result : bytes) (rest : list RecvEvent)
         (out : Result bytes),
    read_recv_loop evs end_length result = (rest, out) ->
    exists consumed,
      evs = consumed ++ rest /\
      (forall pre, consumed = pre ++ [Chunk []] -> out = Ok []).
Proof.
  assert (Hnil : forall (pre : list RecvEvent) ev, [] <> pre ++ [ev]).
  { intros pre ev H. now destruct pre. }
  assert (Hone : forall (pre : list RecvEvent) ev ev',
             [ev] = pre ++ [ev'] -> ev = ev').
  { intros pre ev ev' H. destruct pre as [|x pre]; cbn [app] in H.
    - now injection H.
    - injection H as _ H. now apply Hnil in H. }
  induction evs as [|ev evs IH]; intros end_length result rest out;
    rewrite read_recv_loop_eq.
  - intro H. exists [].
    split; [destruct (len result <? end_length); now injection H as <- _|].
    intros pre Hpre. now apply Hnil in Hpre.
  - destruct (len result <? end_length).
    + destruct ev as [response| |].
      * destruct (len response <=? 0) eqn:E0.
        { intro H. injection H as <- <-. exists [Chunk response].
          split; [reflexivity | reflexivity]. }
        assert (Hrec : forall e,
                   read_recv_loop evs e (result ++ response) = (rest, out) ->
                   exists consumed,
                     Chunk response :: evs = consumed ++ rest /\
                     (forall pre, consumed = pre ++ [Chunk []] ->
                        out = Ok [])).
        { intros e He. apply IH in He as [consumed [-> Hlast]].
          exists (Chunk response :: consumed). split; [reflexivity|].
          intros pre Hpre. destruct pre as [|x pre]; cbn [app] in Hpre.
          - injection Hpre as -> _. discriminate E0.
          - injection Hpre as _ Hpre. now apply Hlast in Hpre. }
        destruct ((end_length =? 4) && (4 <=? len response)); [|apply Hrec].
        destruct (MAX_IPC_SIZE <? _); [|apply Hrec].
        intro H. injection H as <- <-. exists [Chunk response].
        split; reflexivity.
      * intro H. injection H as <- <-. exists [TimedOut].
        split; [reflexivity|]. intros pre Hpre.
        apply Hone in Hpre. discriminate Hpre.
      * intro H. injection H as <- <-. exists [Raised].
        split; [reflexivity|]. intros pre Hpre.
        apply Hone in Hpre. discriminate Hpre.
    + intro H. injection H as <- <-. exists []. split; [reflexivity|].
      intros pre Hpre. now apply Hnil in Hpre.
Qed.

(** The loop ends with the empty result as soon as a [recv] it makes returns
    no bytes, wherever in the response that happens. *)
Lemma empty_read_breaks (evs pre rest : list RecvEvent) (out : Result bytes) :
  read_recv_loop evs 4 [] = (rest, out) ->
  evs = pre ++ Chunk [] :: rest ->
  out = Ok [].
Proof.
  intros Hloop Hevs.
  apply read_recv_loop_trace in Hloop as [consumed [Hcons Hlast]].
  apply (Hlast pre). rewrite Hcons in Hevs.
  change (pre ++ Chunk [] :: rest) with (pre ++ [Chunk []] ++ rest) in Hevs.
  rewrite app_assoc in Hevs. now apply app_inv_tail in Hevs.
Qed.

(** The loop ends with the empty result when the length it decodes is above
    [MAX_IPC_SIZE], whether the length field came in one chunk or after a
    run of short ones. *)
Lemma oversized_breaks_after (pre : list RecvEvent) (c : bytes)
  (evs : list RecvEvent) :
  short_chunks pre ->
  len (received pre) < 4 ->
  4 <= len c ->
  MAX_IPC_SIZE < from_array (firstn 4 (received pre ++ c)) 4 ->
  read_recv_loop (pre ++ Chunk c :: evs) 4 [] = (evs, Ok []).
Proof.
  intros Hshort Hlen Hc Hbig.
  rewrite (short_chunks_step pre _ [] Hshort Hlen). cbn [app].
  rewrite (decode_step _ _ _ Hlen Hc).
  apply Z.ltb_lt in Hbig. now rewrite Hbig.
Qed.

(** ** The connection state *)

Lemma init_socket_failed (self : Pine) (tr : Transport) :
  connect_ok tr = false ->
  _init_socket self tr = mkPine (_slot self) Closed false.
Proof. intro H. unfold _init_socket. now rewrite H. Qed.

Lemma init_socket_connected (self : Pine) (tr : Transport) :
  connect_ok tr = true -> Connected (_init_socket self tr).
Proof. intro H. unfold _init_socket. rewrite H. now split. Qed.

(** C5, as stated, fails: when the peer closes the stream, and when the
    declared length is above the loop's bound, the call raises but the
    client stays connected with its socket open. *)
Lemma recv_error_disconnects_counterexample :
  Connected connected_client /\
  outcome (read connected_client (healthy [Chunk []]) (Member INT8) 0)
    = Err ConnectionError_invalid /\
  self_after (read connected_client (healthy [Chunk []]) (Member INT8) 0)
    = connected_client /\
  outcome (write connected_client
             (healthy [Chunk (frame_start (MAX_IPC_SIZE + 1))]) (Member INT8) 0 7)
    = Err ConnectionError_invalid /\
  self_after (write connected_client
                (healthy [Chunk (frame_start (MAX_IPC_SIZE + 1))])
                (Member INT8) 0 7)
    = connected_client /\
  ~ Disconnected connected_client.
Proof.
  split; [now split|]. do 4 (split; [reflexivity|]).
  intros [H _]. discriminate H.
Qed.

(** C5, amended.  From Connected, a failed [sendall] closes the socket and
    leaves the client Disconnected, raising "Lost connection".  Once the
    request is sent, nothing the receive side does changes the connection;
    and whenever the last [recv] of the call returns no bytes, at any point
    of the response, or the length the loop decodes is above its bound, the
    call raises "Invalid response".  From Disconnected, a failed reconnect
    leaves the client Disconnected with the socket closed and raises nothing
    itself; the call then fails at its [sendall]. *)
Theorem connection_state_machine :
  forall (self : Pine) (tr : Transport) (ds : SizeArg) (address data : Z)
         (rq wq : bytes),
    read_request ds address = Ok rq ->
    write_request ds address data = Ok wq ->
    (Connected self -> send_ok tr = false ->
       outcome (read self tr ds address) = Err ConnectionError_lost /\
       outcome (write self tr ds address data) = Err ConnectionError_lost /\
       self_after (read self tr ds address) = mkPine (_slot self) Closed false /\
       self_after (write self tr ds address data)
         = mkPine (_slot self) Closed false /\
       Disconnected (self_after (read self tr ds address))) /\
    (Connected self -> send_ok tr = true ->
       self_after (read self tr ds address) = self /\
       self_after (write self tr ds address data) = self /\
       (forall pre,
          incoming tr = pre ++ Chunk [] :: unread (read self tr ds address) ->
          outcome (read self tr ds address) = Err ConnectionError_invalid) /\
       (forall pre,
          incoming tr
            = pre ++ Chunk [] :: unread (write self tr ds address data) ->
          outcome (write self tr ds address data)
            = Err ConnectionError_invalid) /\
       (forall pre c evs,
          incoming tr = pre ++ Chunk c :: evs ->
          short_chunks pre -> len (received pre) < 4 -> 4 <= len c ->
          MAX_IPC_SIZE < from_array (firstn 4 (received pre ++ c)) 4 ->
          outcome (read self tr ds address) = Err ConnectionError_invalid /\
          outcome (write self tr ds address data)
            = Err ConnectionError_invalid /\
          unread (read self tr ds address) = evs /\
          unread (write self tr ds address data) = evs)) /\
    (Disconnected self -> connect_ok tr = false ->
       _init_socket self tr = mkPine (_slot self) Closed false /\
       Disconnected (_init_socket self tr) /\
       self_after (read self tr ds address) = mkPine (_slot self) Closed false /\
       self_after (write self tr ds address data)
         = mkPine (_slot self) Closed false /\
       outcome (read self tr ds address) = Err ConnectionError_lost /\
       outcome (write self tr ds address data) = Err ConnectionError_lost) /\
    (Disconnected self -> connect_ok tr = true ->
       Connected (_init_socket self tr)).
Proof.
  intros self tr ds address data rq wq Hrq Hwq.
  split; [|split; [|split]].
  - intros [Hstate Hsock] Hsend. unfold read, write.
    rewrite Hrq, Hwq, Hstate. cbn [negb]. unfold sendall_ok.
    rewrite Hsock, Hsend. cbn. repeat split; discriminate.
  - intros Hconn Hsend.
    rewrite (read_on_connected _ _ _ _ _ Hrq Hconn Hsend).
    rewrite (write_on_connected _ _ _ _ _ _ Hwq Hconn Hsend).
    rewrite <- (recv_loops_agree (incoming tr) 4 []).
    cbn [self_after unread outcome].
    split; [reflexivity|]. split; [reflexivity|].
    destruct (read_recv_loop (incoming tr) 4 []) as [rest out] eqn:Hloop.
    cbn [fst snd]. split; [|split].
    + intros pre Hin. now rewrite (empty_read_breaks _ _ _ _ Hloop Hin).
    + intros pre Hin. now rewrite (empty_read_breaks _ _ _ _ Hloop Hin).
    + intros pre c evs Hin Hshort Hlen Hc Hbig.
      rewrite Hin, (oversized_breaks_after _ _ _ Hshort Hlen Hc Hbig) in Hloop.
      injection Hloop as <- <-. now repeat split.
  - intros [Hstate _] Hconnect.
    rewrite (init_socket_failed _ _ Hconnect). unfold read, write.
    rewrite Hrq, Hwq, Hstate. cbn [negb].
    rewrite (init_socket_failed _ _ Hconnect). cbn.
    repeat split; discriminate.
  - intros _ Hconnect. now apply init_socket_connected.
Qed.

Lemma connection_state_machine_witness :
  read_request (Member INT8) 0 = Ok (le_bytes 4 9 ++ [x00] ++ le_bytes 4 0) /\
  write_request (Member INT8) 0 7
    = Ok (le_bytes 4 10 ++ [x04] ++ le_bytes 4 0 ++ [x07]) /\
  Connected connected_client /\
  send_ok (mkTransport true false []) = false /\
  Disconnected fresh_client /\
  connect_ok (mkTransport false true []) = false /\
  (outcome (read connected_client (mkTransport true false []) (Member INT8) 0)
     = Err ConnectionError_lost /\
   outcome (write connected_client (mkTransport true false []) (Member INT8) 0 7)
     = Err ConnectionError_lost /\
   self_after (read connected_client (mkTransport true false []) (Member INT8) 0)
     = mkPine (_slot connected_client) Closed false /\
   self_after (write connected_client (mkTransport true false [])
                 (Member INT8) 0 7)
     = mkPine (_slot connected_client) Closed false /\
   Disconnected
     (self_after (read connected_client (mkTransport true false [])
                    (Member INT8) 0))) /\
  send_ok (healthy [Chunk [x09; x00; x00; x00; x00]; Chunk []; Chunk [xaa]])
    = true /\
  incoming (healthy [Chunk [x09; x00; x00; x00; x00]; Chunk []; Chunk [xaa]])
    = [Chunk [x09; x00; x00; x00; x00]] ++ Chunk [] ::
        unread (read connected_client
                  (healthy [Chunk [x09; x00; x00; x00; x00]; Chunk [];
                            Chunk [xaa]]) (Member INT8) 0) /\
  outcome (read connected_client
             (healthy [Chunk [x09; x00; x00; x00; x00]; Chunk []; Chunk [xaa]])
             (Member INT8) 0)
    = Err ConnectionError_invalid /\
  short_chunks [Chunk [x51; xeb]; Chunk [x09]] /\
  len (received [Chunk [x51; xeb]; Chunk [x09]]) < 4 /\
  4 <= len [x00; x00; x00; x00] /\
  MAX_IPC_SIZE
    < from_array
        (firstn 4 (received [Chunk [x51; xeb]; Chunk [x09]]
                     ++ [x00; x00; x00; x00])) 4 /\
  outcome (read connected_client
             (healthy ([Chunk [x51; xeb]; Chunk [x09]]
                         ++ Chunk [x00; x00; x00; x00] :: [Chunk [xaa]]))
             (Member INT8) 0)
    = Err ConnectionError_invalid /\
  Disconnected (_init_socket fresh_client (mkTransport false true [])).
Proof.
  assert (Hshort : short_chunks [Chunk [x51; xeb]; Chunk [x09]]).
  { repeat constructor; eexists; (split; [reflexivity|]); cbn; lia. }
  split; [reflexivity|]. split; [reflexivity|].
  split; [split; reflexivity|]. split; [reflexivity|].
  split; [split; [reflexivity | discriminate]|]. split; [reflexivity|].
  split; [|split; [reflexivity|split; [reflexivity|split]]].
  - destruct (connection_state_machine connected_client
                (mkTransport true false []) (Member INT8) 0 7 _ _
                eq_refl eq_refl) as [Hlost _].
    apply Hlost; [split|]; reflexivity.
  - destruct (connection_state_machine connected_client
                (healthy [Chunk [x09; x00; x00; x00; x00]; Chunk [];
                          Chunk [xaa]])
                (Member INT8) 0 7 _ _ eq_refl eq_refl) as [_ [Hrecv _]].
    destruct (Hrecv (conj eq_refl eq_refl) eq_refl) as [_ [_ [Hempty _]]].
    apply (Hempty [Chunk [x09; x00; x00; x00; x00]]). reflexivity.
  - split; [exact Hshort|]. split; [cbn; lia|]. split; [cbn; lia|].
    split; [unfold MAX_IPC_SIZE; cbn; lia|]. split.
    + destruct (connection_state_machine connected_client
                  (healthy ([Chunk [x51; xeb]; Chunk [x09]]
                              ++ Chunk [x00; x00; x00; x00] :: [Chunk [xaa]]))
                  (Member INT8) 0 7 _ _ eq_refl eq_refl) as [_ [Hrecv _]].
      destruct (Hrecv (conj eq_refl eq_refl) eq_refl) as [_ [_ [_ [_ Hbig]]]].
      apply (Hbig [Chunk [x51; xeb]; Chunk [x09]] [x00; x00; x00; x00]
               [Chunk [xaa]]);
        [reflexivity | exact Hshort | cbn; lia | cbn; lia
        | unfold MAX_IPC_SIZE; cbn; lia].
    + destruct (connection_state_machine fresh_client
                  (mkTransport false true []) (Member INT8) 0 7 _ _
                  eq_refl eq_refl) as [_ [_ [Hfail _]]].
      apply Hfail; [split; [reflexivity | discriminate] | reflexivity].
Defined.

(** ** [read] and [write] receive alike *)

Lemma checks_agree (res : bytes) :
  write_checks res = (_ <- read_checks res ;; Ok tt).
Proof.
  unfold write_checks, read_checks.
  destruct (len res =? 0); [reflexivity|].
  destruct (nth_error res 4) as [status|]; [|reflexivity].
  now destruct (byte_to_Z status =? IPCResult_value IPC_FAIL).
Qed.

(** C10.  The receiving halves of [read] and [write] are the same function:
    their loops agree on every script, end length and accumulator, their
    checks agree on every accumulated response, and so, with both requests
    built, the two calls leave the same client and the same unread events
    behind and end alike: [write] returns when [read] returns a response and
    raises the same exception when [read] raises. *)
Theorem read_write_reception_agree :
  forall (self : Pine) (tr : Transport) (ds ds' : SizeArg)
         (address address' data : Z) (rq wq : bytes),
    read_request ds address = Ok rq ->
    write_request ds' address' data = Ok wq ->
    (forall evs end_length result,
       read_recv_loop evs end_length result
         = write_recv_loop evs end_length result) /\
    (forall res, write_checks res = (_ <- read_checks res ;; Ok tt)) /\
    self_after (read self tr ds address)
      = self_after (write self tr ds' address' data) /\
    unread (read self tr ds address)
      = unread (write self tr ds' address' data) /\
    outcome (write self tr ds' address' data)
      = (_ <- outcome (read self tr ds address) ;; Ok tt).
Proof.
  intros self tr ds ds' address address' data rq wq Hrq Hwq.
  split; [intros; apply recv_loops_agree|]. split; [exact checks_agree|].
  unfold read, write. rewrite Hrq, Hwq.
  destruct (sendall_ok _ tr); [|now repeat split].
  rewrite <- (recv_loops_agree (incoming tr) 4 []).
  destruct (read_recv_loop (incoming tr) 4 []) as [rest [res|e]];
    cbn [self_after unread outcome bind]; repeat split.
  apply checks_agree.
Qed.

Lemma read_write_reception_agree_witness :
  read_request (Member INT32) 0 = Ok (le_bytes 4 9 ++ [x02] ++ le_bytes 4 0) /\
  write_request (Member INT8) 16 7
    = Ok (le_bytes 4 10 ++ [x04] ++ le_bytes 4 16 ++ [x07]) /\
  outcome (write connected_client
             (healthy [Chunk [x09; x00; x00]; Chunk [x00; xff; xaa]])
             (Member INT8) 16 7)
    = (_ <- outcome (read connected_client
                       (healthy [Chunk [x09; x00; x00]; Chunk [x00; xff; xaa]])
                       (Member INT32) 0) ;; Ok tt).
Proof.
  split; [reflexivity|]. split; [reflexivity|].
  apply (read_write_reception_agree connected_client
           (healthy [Chunk [x09; x00; x00]; Chunk [x00; xff; xaa]])
           (Member INT32) (Member INT8) 0 16 7 _ _ eq_refl eq_refl).
Defined.

(** ** The length field of a response *)

(** C1, on the code.  The bound the loop compares the declared length with is
    [MAX_IPC_SIZE], the request bound, not [MAX_IPC_RETURN_SIZE]: a response
    declaring one byte more than the reply bound is not rejected, the loop
    goes on receiving towards that length; only a length above
    [MAX_IPC_SIZE] ends the call with "Invalid response" before any further
    [recv]. *)
Theorem reply_bound_not_enforced :
  from_array (firstn 4 (frame_start (MAX_IPC_RETURN_SIZE + 1))) 4
    = MAX_IPC_RETURN_SIZE + 1 /\
  (forall evs,
     read_recv_loop (Chunk (frame_start (MAX_IPC_RETURN_SIZE + 1)) :: evs) 4 []
       = read_recv_loop evs (MAX_IPC_RETURN_SIZE + 1)
           (frame_start (MAX_IPC_RETURN_SIZE + 1))) /\
  read connected_client
    (healthy [Chunk (frame_start (MAX_IPC_RETURN_SIZE + 1)); Chunk [xaa]])
    (Member INT8) 0
    = mkCall connected_client [le_bytes 4 9 ++ [x00] ++ le_bytes 4 0] []
        (Err TimeoutError_response) /\
  read connected_client
    (healthy [Chunk (frame_start (MAX_IPC_SIZE + 1)); Chunk [xaa]])
    (Member INT8) 0
    = mkCall connected_client [le_bytes 4 9 ++ [x00] ++ le_bytes 4 0]
        [Chunk [xaa]] (Err ConnectionError_invalid).
Proof.
  split; [reflexivity|]. split; [|split; reflexivity].
  intro evs. rewrite header_chunk_step by (cbn; lia). reflexivity.
Qed.

(** C2, on the code.  The length field is decoded only when the chunk just
    received has at least four bytes itself.  A nine-byte response arriving
    three bytes at a time is cut off after six bytes, its length never
    decoded, and returned as if complete; arriving as 2 + 2 + 5 bytes it
    leaves the loop with four bytes and the status test raises
    [IndexError].  The same response in one piece is read whole. *)
Theorem short_chunks_skip_length_decoding :
  received [Chunk [x09; x00; x00]; Chunk [x00; x00; xaa];
            Chunk [xbb; xcc; xdd]] = sample_frame /\
  from_array (firstn 4 sample_frame) 4 = 9 /\
  read connected_client
    (healthy [Chunk [x09; x00; x00]; Chunk [x00; x00; xaa];
              Chunk [xbb; xcc; xdd]])
    (Member INT32) 0
    = mkCall connected_client [le_bytes 4 9 ++ [x02] ++ le_bytes 4 0]
        [Chunk [xbb; xcc; xdd]] (Ok [x09; x00; x00; x00; x00; xaa]) /\
  read connected_client
    (healthy [Chunk [x09; x00]; Chunk [x00; x00];
              Chunk [x00; xaa; xbb; xcc; xdd]])
    (Member INT32) 0
    = mkCall connected_client [le_bytes 4 9 ++ [x02] ++ le_bytes 4 0]
        [Chunk [x00; xaa; xbb; xcc; xdd]] (Err IndexError) /\
  read connected_client (healthy [Chunk sample_frame]) (Member INT32) 0
    = mkCall connected_client [le_bytes 4 9 ++ [x02] ++ le_bytes 4 0]
        [] (Ok sample_frame).
Proof.
  repeat split.
Qed.

(** ** The constructor *)

Module Construction.
Import Stdlib.Strings.String.
Local Open Scope string_scope.

(** C9, on the code.  The range check lets slot 65536 through, as it does
    slot 1, and refuses 0 and 65537 with the slot error, in both
    constructors.  But in pycsx2 on "Windows" the slot is the port
    [connect] is given, 65536 is no port, and the [OverflowError] of
    [connect] is not caught: the construction fails.  With slot 65535 there,
    and with slot 65536 on "Linux", it succeeds, a refused connection
    leaving a disconnected client. *)
Theorem slot_65536_fails_on_windows :
  (forall environ tr, __init__ "Windows" environ 65536 tr = Err OverflowError) /\
  (forall environ tr,
     __init__ "Windows" environ 65535 tr
       = Ok (_init_socket (mkPine 65535 Unset false) tr)) /\
  (forall environ tr,
     __init__ "Linux" environ 65536 tr
       = Ok (_init_socket (mkPine 65536 Unset false) tr)) /\
  (forall system environ tr,
     __init__ system environ 0 tr = Err ValueError_slot /\
     __init__ system environ 65537 tr = Err ValueError_slot /\
     __init__ system environ 1 tr
       = Ok (_init_socket (mkPine 1 Unset false) tr)) /\
  _init_socket (mkPine 65535 Unset false) (mkTransport false true [])
    = mkPine 65535 Closed false /\
  Pinethon.__init__ 0 = Err ValueError_slot /\
  Pinethon.__init__ 65537 = Err ValueError_slot /\
  (exists self, Pinethon.__init__ 1 = Ok self /\ Pinethon.slot self = 1) /\
  (exists self,
     Pinethon.__init__ 65536 = Ok self /\ Pinethon.slot self = 65536).
Proof.
  split; [reflexivity|]. split; [reflexivity|]. split; [reflexivity|].
  split.
  - intros system environ tr. split; [reflexivity|]. split; [reflexivity|].
    unfold __init__, Endpoint.socket_family_name. cbn [negb andb Z.ltb Z.leb].
    change (negb ((0 <? 1)%Z && (1 <=? 65536)%Z)) with false. cbv iota.
    destruct (system =? "Windows"); [reflexivity|].
    destruct (system =? "Linux"); [reflexivity|].
    now destruct (system =? "Darwin").
  - split; [reflexivity|]. split; [reflexivity|]. split; [reflexivity|].
    split; eexists; split; reflexivity.
Qed.

(** The constructor returns exactly on the slots in range whose endpoint
    [connect] accepts, and a client it returned can reconnect: [connect]
    accepts the name of every client with that slot. *)
Lemma constructed_client (system : string)
  (environ : string -> option string) (slot : Z) (tr : Transport)
  (self : Pine) :
  __init__ system environ slot tr = Ok self ->
  self = _init_socket (mkPine slot Unset false) tr /\
  (0 < slot <= 65536)%Z /\
  forall self', _slot self' = slot ->
    Endpoint.connect_overflows
      (snd (Endpoint.socket_family_name system environ self')) = false.
Proof.
  unfold __init__.
  destruct ((0 <? slot)%Z && (slot <=? 65536)%Z) eqn:Hrange;
    [|discriminate]. cbn [negb].
  destruct (Endpoint.connect_overflows _) eqn:Hport; [discriminate|].
  intro H. injection H as <-. split; [reflexivity|].
  apply andb_true_iff in Hrange as [Hlo Hhi].
  apply Z.ltb_lt in Hlo. apply Z.leb_le in Hhi. split; [lia|].
  intros self' Hslot. unfold Endpoint.socket_family_name in *.
  cbn [_slot] in Hport. rewrite Hslot. exact Hport.
Qed.

End Construction.

(** ** The byte codec on its own *)

(** X1.  Integer to bytes and back: whatever [to_array] returns has exactly
    [size] bytes and [from_array] reads the value back from it. *)
Theorem from_array_to_array :
  forall (value size size' : Z) (arr : bytes),
    0 <= size ->
    to_array value size = Ok arr ->
    len arr = size /\ from_array arr size' = value.
Proof.
  intros value size size' arr Hs H.
  apply to_array_ok_inv in H as [Hv ->].
  rewrite len_le_bytes, from_array_le_bytes, Z2Nat.id by lia.
  split; [reflexivity|].
  rewrite pow_256 by lia. now apply Z.mod_small.
Qed.

Lemma from_array_to_array_witness :
  0 <= 8 /\
  to_array 81985529216486895 8
    = Ok [xef; xcd; xab; x89; x67; x45; x23; x01] /\
  len [xef; xcd; xab; x89; x67; x45; x23; x01] = 8 /\
  from_array [xef; xcd; xab; x89; x67; x45; x23; x01] 8 = 81985529216486895.
Proof.
  split; [lia|]. split; [reflexivity|].
  apply (from_array_to_array 81985529216486895 8 8
           [xef; xcd; xab; x89; x67; x45; x23; x01]); [lia | reflexivity].
Defined.

(** X2.  Bytes to integer and back: encoding what [from_array] read, on as
    many bytes as were read, never overflows and gives the same bytes. *)
Theorem to_array_from_array :
  forall (arr : bytes) (size : Z),
    to_array (from_array arr size) (len arr) = Ok arr.
Proof.
  intros arr size.
  pose proof (from_array_range arr size) as Hr.
  assert (Hlen : 0 <= len arr) by (unfold len; lia).
  rewrite pow_256 in Hr by exact Hlen.
  rewrite to_array_fits by exact Hr.
  unfold len. rewrite Nat2Z.id. now rewrite le_bytes_from_array.
Qed.

(** X3.  [from_array] does not look at its [size] argument: it reads every
    byte of the array, whatever size is named, and so two arrays of one
    length that read as the same number are the same array. *)
Theorem from_array_ignores_size :
  forall (arr arr' : bytes) (size size' : Z),
    from_array arr size = from_array arr size' /\
    0 <= from_array arr size < 256 ^ len arr /\
    (length arr = length arr' ->
     from_array arr size = from_array arr' size' -> arr = arr').
Proof.
  intros arr arr' size size'.
  assert (Hsame : forall a s s', from_array a s = from_array a s').
  { induction a as [|b a IH]; intros s s'; [reflexivity|].
    cbn [from_array]. now rewrite (IH s s'). }
  split; [apply Hsame|]. split; [apply from_array_range|].
  intros Hlen Heq.
  rewrite <- (le_bytes_from_array arr size).
  rewrite <- (le_bytes_from_array arr' size').
  now rewrite Hlen, Heq.
Qed.

Lemma from_array_ignores_size_witness :
  length [x01; x02] = length [x01; x02] /\
  from_array [x01; x02] 2 = from_array [x01; x02] 4 /\
  [x01; x02] = [x01; x02].
Proof.
  split; [reflexivity|]. split; [reflexivity|].
  apply (from_array_ignores_size [x01; x02] [x01; x02] 2 4);
    reflexivity.
Defined.

(** ** Arguments the calls refuse *)

Lemma create_request_overflow (command : IPCCommand) (address size : Z) :
  address < 0 \/ 2 ^ 32 <= address ->
  _create_request command address size = Err OverflowError.
Proof.
  intro Ha. unfold _create_request.
  destruct (to_array size 4) as [a|e] eqn:E1.
  - rewrite (to_array_fits (IPCCommand_value command) 1)
      by (destruct command; cbn; lia).
    now rewrite (to_array_overflow address 4 Ha).
  - unfold to_array in E1.
    destruct ((size <? 0) || (2 ^ (8 * 4) <=? size)); [|discriminate].
    now injection E1 as <-.
Qed.

Lemma create_request_ok_inv (command : IPCCommand) (address size : Z)
  (request : bytes) :
  _create_request command address size = Ok request ->
  0 <= size < 2 ^ 32 /\ 0 <= address < 2 ^ 32 /\
  request = (le_bytes 4 size ++ [byte_of_Z (IPCCommand_value command)])
              ++ le_bytes 4 address.
Proof.
  unfold _create_request.
  destruct (to_array size 4) as [a|] eqn:E1; [|discriminate].
  destruct (to_array (IPCCommand_value command) 1) as [b|] eqn:E2;
    [|discriminate].
  destruct (to_array address 4) as [c|] eqn:E3; [|discriminate].
  cbn [bind]. intro H. injection H as <-.
  apply to_array_ok_inv in E1 as [H1 ->].
  apply to_array_ok_inv in E2 as [_ ->].
  apply to_array_ok_inv in E3 as [H3 ->].
  repeat split; solve [apply H1 | apply H3].
Qed.

Lemma read_request_ok_inv (ds : SizeArg) (address : Z) (request : bytes) :
  read_request ds address = Ok request ->
  exists d,
    ds = Member d /\ 0 <= address < 2 ^ 32 /\
    request = (le_bytes 4 9 ++ [byte_of_Z (IPCCommand_value (read_command d))])
                ++ le_bytes 4 address.
Proof.
  destruct ds as [d|]; [|discriminate]. intro H. exists d.
  split; [reflexivity|].
  destruct d; cbn [read_request read_command] in *;
    apply create_request_ok_inv in H as [_ [Ha ->]]; now split.
Qed.

Lemma write_request_ok_inv (ds : SizeArg) (address data : Z) (request : bytes) :
  write_request ds address data = Ok request ->
  exists d,
    ds = Member d /\ 0 <= address < 2 ^ 32 /\
    0 <= data < 2 ^ (8 * DataSize_value d) /\
    request = ((le_bytes 4 (9 + DataSize_value d)
                  ++ [byte_of_Z (IPCCommand_value (write_command d))])
                 ++ le_bytes 4 address)
                ++ le_bytes (Z.to_nat (DataSize_value d)) data.
Proof.
  destruct ds as [d|]; [|discriminate]. unfold write_request. intro H.
  exists d. split; [reflexivity|].
  assert (Hhead : exists header,
             _create_request (write_command d) address (9 + DataSize_value d)
               = Ok header /\
             (payload <- to_array data (DataSize_value d) ;;
              Ok (header ++ payload)) = Ok request).
  { destruct d; cbn [write_command];
      (destruct (_create_request _ address _) as [header|];
       [|discriminate H]); exists header; now split. }
  destruct Hhead as [header [Hheader Hrest]].
  apply create_request_ok_inv in Hheader as [_ [Ha ->]].
  destruct (to_array data (DataSize_value d)) as [payload|] eqn:E;
    [|discriminate].
  apply to_array_ok_inv in E as [Hd ->].
  cbn [bind] in Hrest. injection Hrest as <-. now repeat split.
Qed.

(** X4.  Argument errors come before any use of the socket.  A [data_size]
    that is no member of [DataSize] raises the data-size error, and an
    address that is negative or does not fit in four bytes raises
    [OverflowError]; in both cases the client is left as it was (no
    reconnection is attempted), nothing is sent and nothing is received. *)
Theorem argument_errors_precede_io :
  forall (self : Pine) (tr : Transport) (address data : Z),
    read self tr NotAMember address
      = mkCall self [] (incoming tr) (Err ValueError_data_size) /\
    write self tr NotAMember address data
      = mkCall self [] (incoming tr) (Err ValueError_data_size) /\
    (address < 0 \/ 2 ^ 32 <= address ->
     forall d : DataSize,
       read self tr (Member d) address
         = mkCall self [] (incoming tr) (Err OverflowError) /\
       write self tr (Member d) address data
         = mkCall self [] (incoming tr) (Err OverflowError)).
Proof.
  intros self tr address data. split; [reflexivity|]. split; [reflexivity|].
  intros Ha d. unfold read, write, read_request, write_request.
  destruct d; rewrite !(create_request_overflow _ _ _ Ha); now split.
Qed.

Lemma argument_errors_precede_io_witness :
  (4294967296 < 0 \/ 2 ^ 32 <= 4294967296) /\
  read fresh_client (healthy [Chunk sample_frame]) (Member INT32) 4294967296
    = mkCall fresh_client [] (incoming (healthy [Chunk sample_frame]))
        (Err OverflowError) /\
  write fresh_client (healthy [Chunk sample_frame]) (Member INT32) 4294967296 1
    = mkCall fresh_client [] (incoming (healthy [Chunk sample_frame]))
        (Err OverflowError).
Proof.
  split; [right; cbn; lia|].
  apply (argument_errors_precede_io fresh_client
           (healthy [Chunk sample_frame]) 4294967296 1).
  right. cbn. lia.
Defined.

(** ** Requests on the wire *)

(** X5.  A call hands at most one request to [sendall] and never sends
    again; the length field at the head of whatever it sends is the true
    length of the request: 9 for [read], 9 plus the width for [write]. *)
Theorem sent_request_is_framed :
  forall (self : Pine) (tr : Transport) (ds : SizeArg) (address data : Z),
    (length (sent (read self tr ds address)) <= 1)%nat /\
    (length (sent (write self tr ds address data)) <= 1)%nat /\
    (forall request, In request (sent (read self tr ds address)) ->
       read_request ds address = Ok request /\
       from_array (firstn 4 request) 4 = len request /\ len request = 9) /\
    (forall request, In request (sent (write self tr ds address data)) ->
       write_request ds address data = Ok request /\
       from_array (firstn 4 request) 4 = len request /\
       exists d, ds = Member d /\ len request = 9 + DataSize_value d).
Proof.
  intros self tr ds address data.
  assert (Hr : sent (read self tr ds address) = [] \/
               exists request, read_request ds address = Ok request /\
                 sent (read self tr ds address) = [request]).
  { unfold read. destruct (read_request ds address) as [request|];
      [|now left]. right. exists request. split; [reflexivity|].
    destruct (sendall_ok _ tr); [|reflexivity].
    now destruct (read_recv_loop (incoming tr) 4 []). }
  assert (Hw : sent (write self tr ds address data) = [] \/
               exists request, write_request ds address data = Ok request /\
                 sent (write self tr ds address data) = [request]).
  { unfold write. destruct (write_request ds address data) as [request|];
      [|now left]. right. exists request. split; [reflexivity|].
    destruct (sendall_ok _ tr); [|reflexivity].
    now destruct (write_recv_loop (incoming tr) 4 []). }
  split; [|split; [|split]].
  - destruct Hr as [-> | [request [_ ->]]]; cbn [length]; lia.
  - destruct Hw as [-> | [request [_ ->]]]; cbn [length]; lia.
  - intros request Hin.
    destruct Hr as [Hr | [request' [Hreq Hr]]]; rewrite Hr in Hin;
      [destruct Hin|].
    destruct Hin as [<- | []]. split; [exact Hreq|].
    apply read_request_ok_inv in Hreq as [d [_ [_ ->]]].
    split; reflexivity.
  - intros request Hin.
    destruct Hw as [Hw | [request' [Hreq Hw]]]; rewrite Hw in Hin;
      [destruct Hin|].
    destruct Hin as [<- | []]. split; [exact Hreq|].
    apply write_request_ok_inv in Hreq as [d [-> [_ [_ ->]]]].
    pose proof (DataSize_value_pos d) as Hd.
    assert (Hlen : len (((le_bytes 4 (9 + DataSize_value d)
                            ++ [byte_of_Z (IPCCommand_value (write_command d))])
                           ++ le_bytes 4 address)
                          ++ le_bytes (Z.to_nat (DataSize_value d)) data)
                   = 9 + DataSize_value d).
    { rewrite !len_app, !len_le_bytes. unfold len. cbn [length]. lia. }
    split; [|exists d; now split].
    rewrite Hlen.
    change (firstn 4 _) with (le_bytes 4 (9 + DataSize_value d)).
    rewrite from_array_le_bytes. apply Z.mod_small.
    change (256 ^ Z.of_nat 4) with 4294967296. lia.
Qed.

Lemma sent_request_is_framed_witness :
  In (le_bytes 4 11 ++ [x05] ++ le_bytes 4 16 ++ [x01; x02])
     (sent (write connected_client (healthy []) (Member INT16) 16 513)) /\
  from_array (firstn 4 (le_bytes 4 11 ++ [x05] ++ le_bytes 4 16 ++ [x01; x02])) 4
    = len (le_bytes 4 11 ++ [x05] ++ le_bytes 4 16 ++ [x01; x02]).
Proof.
  split; [left; reflexivity|].
  apply (sent_request_is_framed connected_client (healthy []) (Member INT16)
           16 513).
  left. reflexivity.
Defined.

Lemma read_command_inj (d d' : DataSize) :
  IPCCommand_value (read_command d) = IPCCommand_value (read_command d') ->
  d = d'.
Proof. destruct d, d'; cbn; intro H; first [reflexivity | discriminate H]. Qed.

Lemma write_command_inj (d d' : DataSize) :
  IPCCommand_value (write_command d) = IPCCommand_value (write_command d') ->
  d = d'.
Proof. destruct d, d'; cbn; intro H; first [reflexivity | discriminate H]. Qed.

(** X6.  The request bytes determine the call: two reads that build the same
    request have the same width and address, two writes that build the same
    request have the same width, address and value, and no read request is
    a write request. *)
Theorem request_determines_call :
  forall (ds ds' : SizeArg) (address address' data data' : Z) (request : bytes),
    (read_request ds address = Ok request ->
     read_request ds' address' = Ok request ->
     ds = ds' /\ address = address') /\
    (write_request ds address data = Ok request ->
     write_request ds' address' data' = Ok request ->
     ds = ds' /\ address = address' /\ data = data') /\
    (read_request ds address = Ok request ->
     write_request ds' address' data' = Ok request -> False).
Proof.
  intros ds ds' address address' data data' request. split; [|split].
  - intros H H'.
    apply read_request_ok_inv in H as [d [-> [Ha Hreq]]].
    apply read_request_ok_inv in H' as [d' [-> [Ha' Hreq']]].
    pose proof (decode_header (read_command d) address 9 [] Ha) as D.
    pose proof (decode_header (read_command d') address' 9 [] Ha') as D'.
    rewrite app_nil_r, <- Hreq in D. rewrite app_nil_r, <- Hreq' in D'.
    rewrite D in D'. injection D' as Hc Haddr.
    apply read_command_inj in Hc. subst. now split.
  - intros H H'.
    apply write_request_ok_inv in H as [d [-> [Ha [Hd Hreq]]]].
    apply write_request_ok_inv in H' as [d' [-> [Ha' [Hd' Hreq']]]].
    pose proof (decode_header (write_command d) address
                  (9 + DataSize_value d)
                  (le_bytes (Z.to_nat (DataSize_value d)) data) Ha) as D.
    pose proof (decode_header (write_command d') address'
                  (9 + DataSize_value d')
                  (le_bytes (Z.to_nat (DataSize_value d')) data') Ha') as D'.
    rewrite <- Hreq in D. rewrite <- Hreq' in D'.
    rewrite D in D'. injection D' as Hc Haddr Hpay.
    apply write_command_inj in Hc. subst d' address'.
    split; [reflexivity|]. split; [reflexivity|].
    pose proof (DataSize_value_pos d) as Hw.
    apply (f_equal (fun arr => from_array arr 0)) in Hpay.
    rewrite !from_array_le_bytes, Z2Nat.id, pow_256 in Hpay by lia.
    now rewrite !Z.mod_small in Hpay by assumption.
  - intros H H'.
    apply read_request_ok_inv in H as [d [_ [_ Hreq]]].
    apply write_request_ok_inv in H' as [d' [_ [_ [_ Hreq']]]].
    apply (f_equal (@length byte)) in Hreq.
    apply (f_equal (@length byte)) in Hreq'.
    rewrite !length_app, !length_le_bytes in Hreq.
    rewrite !length_app, !length_le_bytes in Hreq'.
    pose proof (DataSize_value_pos d') as Hw.
    cbn [length] in Hreq, Hreq'. lia.
Qed.

Lemma request_determines_call_witness :
  write_request (Member INT16) 16 513
    = Ok (le_bytes 4 11 ++ [x05] ++ le_bytes 4 16 ++ [x01; x02]) /\
  Member INT16 = Member INT16 /\ 16 = 16 /\ 513 = 513.
Proof.
  split; [reflexivity|].
  apply (request_determines_call (Member INT16) (Member INT16) 16 16 513 513
           (le_bytes 4 11 ++ [x05] ++ le_bytes 4 16 ++ [x01; x02]));
    reflexivity.
Defined.

(** ** Reconnection *)

Lemma Connected_eta (self : Pine) :
  Connected self -> self = mkPine (_slot self) Open true.
Proof.
  destruct self as [slot sock state]. unfold Connected.
  cbn [_slot _sock _sock_state]. now intros [-> ->].
Qed.

(** X7.  Reconnection is transparent.  A call on a client whose flag is
    cleared first runs [_init_socket]; when that connects, the call does in
    every respect what it does on a connected client of the same slot. *)
Theorem reconnect_is_transparent :
  forall (self : Pine) (tr : Transport) (ds : SizeArg) (address data : Z)
         (rq wq : bytes),
    _sock_state self = false ->
    connect_ok tr = true ->
    read_request ds address = Ok rq ->
    write_request ds address data = Ok wq ->
    read self tr ds address
      = read (mkPine (_slot self) Open true) tr ds address /\
    write self tr ds address data
      = write (mkPine (_slot self) Open true) tr ds address data.
Proof.
  intros self tr ds address data rq wq Hstate Hconn Hrq Hwq.
  unfold read, write. rewrite Hrq, Hwq, Hstate. cbn [negb _sock_state].
  unfold _init_socket. rewrite Hconn. now split.
Qed.

Lemma reconnect_is_transparent_witness :
  _sock_state fresh_client = false /\
  connect_ok (healthy [Chunk sample_frame]) = true /\
  read_request (Member INT32) 0 = Ok (le_bytes 4 9 ++ [x02] ++ le_bytes 4 0) /\
  write_request (Member INT32) 0 7
    = Ok (le_bytes 4 13 ++ [x06] ++ le_bytes 4 0 ++ le_bytes 4 7) /\
  read fresh_client (healthy [Chunk sample_frame]) (Member INT32) 0
    = read (mkPine (_slot fresh_client) Open true)
        (healthy [Chunk sample_frame]) (Member INT32) 0.
Proof.
  do 4 (split; [reflexivity|]).
  apply (reconnect_is_transparent fresh_client (healthy [Chunk sample_frame])
           (Member INT32) 0 7 _ _ eq_refl eq_refl eq_refl eq_refl).
Defined.

(** X8.  A lost connection is repaired by the next call.  After a call on a
    connected client has failed at [sendall], the next call, if its
    [connect] succeeds, does exactly what it would have done on the client
    before the failure; if its [connect] fails too, it raises "Lost
    connection" again and the client stays disconnected. *)
Theorem next_call_reconnects :
  forall (self : Pine) (tr tr' : Transport) (ds ds' : SizeArg)
         (address address' : Z) (rq rq' : bytes),
    Connected self ->
    send_ok tr = false ->
    read_request ds address = Ok rq ->
    read_request ds' address' = Ok rq' ->
    (connect_ok tr' = true ->
     read (self_after (read self tr ds address)) tr' ds' address'
       = read self tr' ds' address') /\
    (connect_ok tr' = false ->
     read (self_after (read self tr ds address)) tr' ds' address'
       = mkCall (mkPine (_slot self) Closed false) [rq'] (incoming tr')
           (Err ConnectionError_lost)).
Proof.
  intros self tr tr' ds ds' address address' rq rq' Hconn Hsend Hrq Hrq'.
  assert (Hafter : self_after (read self tr ds address)
                   = mkPine (_slot self) Closed false).
  { destruct Hconn as [Hstate Hsock]. unfold read.
    rewrite Hrq, Hstate. cbn [negb]. unfold sendall_ok.
    now rewrite Hsock, Hsend. }
  rewrite Hafter. split; intro Hc.
  - rewrite (Connected_eta self Hconn) at 2.
    unfold read. rewrite Hrq'. cbn [negb _sock_state].
    unfold _init_socket. now rewrite Hc.
  - unfold read. rewrite Hrq'. cbn [negb _sock_state].
    unfold _init_socket. now rewrite Hc.
Qed.

Lemma next_call_reconnects_witness :
  Connected connected_client /\
  send_ok (mkTransport true false []) = false /\
  read_request (Member INT8) 0 = Ok (le_bytes 4 9 ++ [x00] ++ le_bytes 4 0) /\
  read_request (Member INT32) 0 = Ok (le_bytes 4 9 ++ [x02] ++ le_bytes 4 0) /\
  connect_ok (healthy [Chunk sample_frame]) = true /\
  read (self_after (read connected_client (mkTransport true false [])
                      (Member INT8) 0))
    (healthy [Chunk sample_frame]) (Member INT32) 0
    = read connected_client (healthy [Chunk sample_frame]) (Member INT32) 0.
Proof.
  split; [split; reflexivity|]. do 4 (split; [reflexivity|]).
  refine (proj1 (next_call_reconnects connected_client
            (mkTransport true false []) (healthy [Chunk sample_frame])
            (Member INT8) (Member INT32) 0 0 _ _
            (conj eq_refl eq_refl) eq_refl eq_refl eq_refl) eq_refl).
Defined.

(** ** What every call keeps *)

Lemma self_after_read_cases (self : Pine) (tr : Transport) (ds : SizeArg)
  (address : Z) :
  self_after (read self tr ds address) = self \/
  self_after (read self tr ds address) = mkPine (_slot self) Open true \/
  self_after (read self tr ds address) = mkPine (_slot self) Closed false.
Proof.
  unfold read. destruct (read_request ds address); [|now left].
  destruct (_sock_state self); cbn [negb].
  - destruct (sendall_ok self tr); [|now right; right].
    destruct (read_recv_loop (incoming tr) 4 []). now left.
  - unfold _init_socket, sendall_ok. destruct (connect_ok tr); cbn [_sock].
    + destruct (send_ok tr); [|now right; right].
      destruct (read_recv_loop (incoming tr) 4 []). now right; left.
    + now right; right.
Qed.

Lemma self_after_write_cases (self : Pine) (tr : Transport) (ds : SizeArg)
  (address data : Z) :
  self_after (write self tr ds address data) = self \/
  self_after (write self tr ds address data) = mkPine (_slot self) Open true \/
  self_after (write self tr ds address data) = mkPine (_slot self) Closed false.
Proof.
  unfold write. destruct (write_request ds address data); [|now left].
  destruct (_sock_state self); cbn [negb].
  - destruct (sendall_ok self tr); [|now right; right].
    destruct (write_recv_loop (incoming tr) 4 []). now left.
  - unfold _init_socket, sendall_ok. destruct (connect_ok tr); cbn [_sock].
    + destruct (send_ok tr); [|now right; right].
      destruct (write_recv_loop (incoming tr) 4 []). now right; left.
    + now right; right.
Qed.

(** X9.  The flag tells the truth about the socket.  A constructed client
    has its flag set exactly when its socket is open, and its slot is the
    one given; [read] and [write] keep both facts, whatever the transport
    does and however the call ends. *)
Theorem flag_matches_handle_invariant :
  forall (system : String.string)
         (environ : String.string -> option String.string)
         (slot : Z) (self : Pine) (tr : Transport) (ds : SizeArg)
         (address data : Z),
    (__init__ system environ slot tr = Ok self ->
     flag_matches_handle self /\ _slot self = slot) /\
    (flag_matches_handle self ->
     flag_matches_handle (self_after (read self tr ds address)) /\
     _slot (self_after (read self tr ds address)) = _slot self /\
     flag_matches_handle (self_after (write self tr ds address data)) /\
     _slot (self_after (write self tr ds address data)) = _slot self).
Proof.
  intros system environ slot self tr ds address data. split.
  - unfold __init__. destruct (negb _); [discriminate|].
    destruct (Endpoint.connect_overflows _); [discriminate|].
    intro H. injection H as <-. unfold _init_socket.
    destruct (connect_ok tr); now split.
  - intro Hinv.
    destruct (self_after_read_cases self tr ds address) as [-> | [-> | ->]];
      destruct (self_after_write_cases self tr ds address data)
        as [-> | [-> | ->]];
      repeat split; assumption.
Qed.

Lemma flag_matches_handle_invariant_witness :
  __init__ String.EmptyString (fun _ => None) 28011 (mkTransport false true [])
    = Ok (mkPine 28011 Closed false) /\
  flag_matches_handle (mkPine 28011 Closed false) /\
  flag_matches_handle
    (self_after (read (mkPine 28011 Closed false)
                   (healthy [Chunk sample_frame]) (Member INT32) 0)).
Proof.
  split; [reflexivity|]. split; [reflexivity|].
  apply (flag_matches_handle_invariant String.EmptyString (fun _ => None)
           28011 (mkPine 28011 Closed false)
           (healthy [Chunk sample_frame]) (Member INT32) 0 0).
  reflexivity.
Defined.

Lemma read_recv_loop_raises (evs : list RecvEvent) :
  forall (end_length : Z) (result : bytes) (rest : list RecvEvent) (e : PyError),
    read_recv_loop evs end_length result = (rest, Err e) ->
    e = TimeoutError_response \/ e = OSError_recv.
Proof.
  induction evs as [|ev evs IH]; intros end_length result rest e;
    rewrite read_recv_loop_eq.
  - destruct (len result <? end_length); [|discriminate].
    intro H. injection H as _ <-. now left.
  - destruct (len result <? end_length); [|discriminate].
    destruct ev as [response| |];
      [|intro H; injection H as _ <-; now left
       |intro H; injection H as _ <-; now right].
    destruct (len response <=? 0); [discriminate|].
    destruct ((end_length =? 4) && (4 <=? len response)); [|apply IH].
    destruct (MAX_IPC_SIZE <? _); [discriminate | apply IH].
Qed.

Lemma read_checks_raises (res : bytes) (e : PyError) :
  read_checks res = Err e ->
  e = ConnectionError_invalid \/ e = ConnectionError_failure \/ e = IndexError.
Proof.
  unfold read_checks. destruct (len res =? 0).
  - intro H. injection H as <-. now left.
  - destruct (nth_error res 4) as [status|].
    + destruct (byte_to_Z status =? IPCResult_value IPC_FAIL); [|discriminate].
      intro H. injection H as <-. now right; left.
    + intro H. injection H as <-. now right; right.
Qed.

Lemma request_raises (ds : SizeArg) (address : Z) (e : PyError) :
  read_request ds address = Err e ->
  e = ValueError_data_size \/ e = OverflowError.
Proof.
  destruct ds as [d|]; [|intro H; injection H as <-; now left].
  intro H. right.
  assert (Hc : exists command size,
             _create_request command address size = Err e).
  { destruct d; cbn [read_request] in H; eauto. }
  destruct Hc as [command [size Hc]]. unfold _create_request in Hc.
  assert (Hto : forall v s a, to_array v s = @Err bytes a -> a = OverflowError).
  { intros v s a. unfold to_array.
    destruct ((v <? 0) || (2 ^ (8 * s) <=? v)); [|discriminate].
    intro E. now injection E. }
  destruct (to_array size 4) eqn:E1;
    [|cbn [bind] in Hc; injection Hc as <-; now apply Hto in E1].
  destruct (to_array (IPCCommand_value command) 1) eqn:E2;
    [|cbn [bind] in Hc; injection Hc as <-; now apply Hto in E2].
  destruct (to_array address 4) eqn:E3; [discriminate Hc|].
  cbn [bind] in Hc. injection Hc as <-. now apply Hto in E3.
Qed.

(** X10.  What an exception of [read] tells about the client.  The data-size
    error and [OverflowError] mean nothing was sent and the client is as it
    was; "Lost connection" means the socket is closed and the flag cleared;
    a timeout, "Invalid response", "Failure indicated" and [IndexError] all
    come after the request was handed to [sendall] and leave the client
    connected.  [read] raises nothing else. *)
Theorem read_error_effect :
  forall (self : Pine) (tr : Transport) (ds : SizeArg) (address : Z)
         (e : PyError),
    outcome (read self tr ds address) = Err e ->
    error_effect self (read self tr ds address) e.
Proof.
  intros self tr ds address e. unfold read, error_effect.
  destruct (read_request ds address) as [request|e0] eqn:Hrq.
  - set (self1 := if negb (_sock_state self) then _init_socket self tr
                  else self).
    assert (Hslot : _slot self1 = _slot self).
    { subst self1. destruct (_sock_state self); cbn [negb]; [reflexivity|].
      unfold _init_socket. now destruct (connect_ok tr). }
    destruct (sendall_ok self1 tr) eqn:Hsend.
    + assert (Hconn : Connected self1).
      { unfold sendall_ok in Hsend. subst self1. unfold Connected.
        destruct (_sock_state self) eqn:Hstate; cbn [negb] in *.
        - destruct (_sock self); try discriminate. now split.
        - unfold _init_socket in *. destruct (connect_ok tr); cbn in *;
            [now split | discriminate]. }
      destruct (read_recv_loop (incoming tr) 4 []) as [rest [res|e1]] eqn:Hloop;
        cbn [outcome self_after sent bind]; intro H; right; right.
      * apply read_checks_raises in H.
        split; [tauto|]. split; [exact Hconn|]. split; [exact Hslot|].
        now exists request.
      * injection H as <-. apply read_recv_loop_raises in Hloop.
        split; [tauto|]. split; [exact Hconn|]. split; [exact Hslot|].
        now exists request.
    + cbn [outcome self_after sent]. intro H. injection H as <-.
      right; left. split; [reflexivity|]. unfold drop_connection.
      rewrite Hslot. split; [reflexivity|]. now exists request.
  - cbn [outcome self_after sent]. intro H. injection H as <-. left.
    split; [now apply (request_raises ds address)|]. now split.
Qed.

Lemma read_error_effect_witness :
  outcome (read connected_client (healthy [Chunk [x09; x00]; Chunk [x00; x00]])
             (Member INT32) 0)
    = Err IndexError /\
  error_effect connected_client
    (read connected_client (healthy [Chunk [x09; x00]; Chunk [x00; x00]])
       (Member INT32) 0)
    IndexError.
Proof.
  split; [reflexivity|].
  apply (read_error_effect connected_client
           (healthy [Chunk [x09; x00]; Chunk [x00; x00]]) (Member INT32) 0
           IndexError).
  reflexivity.
Defined.

(** ** Responses that arrive header first *)

(** Once the end length is no longer 4 it is never decoded again: the loop
    ends with at least that many bytes, or breaks with none. *)
Lemma read_recv_loop_fixed_length (evs : list RecvEvent) :
  forall (end_length : Z) (result : bytes) (rest : list RecvEvent) (res : bytes),
    end_length <> 4 ->
    read_recv_loop evs end_length result = (rest, Ok res) ->
    res = [] \/
    (end_length <= len res /\ exists tail, res = result ++ tail).
Proof.
  induction evs as [|ev evs IH]; intros end_length result rest res Hne;
    rewrite read_recv_loop_eq.
  - destruct (len result <? end_length) eqn:E; [discriminate|].
    intro H. injection H as _ <-. right. apply Z.ltb_ge in E.
    split; [exact E|]. exists []. now rewrite app_nil_r.
  - destruct (len result <? end_length) eqn:E.
    + destruct ev as [response| |]; [|discriminate|discriminate].
      destruct (len response <=? 0).
      { intro H. injection H as _ <-. now left. }
      apply Z.eqb_neq in Hne. rewrite Hne. cbn [andb].
      apply Z.eqb_neq in Hne. intro H.
      apply (IH _ _ _ _ Hne) in H as [-> | [Hlen [tail ->]]]; [now left|].
      right. split; [exact Hlen|]. exists (response ++ tail).
      now rewrite app_assoc.
    + intro H. injection H as _ <-. right. apply Z.ltb_ge in E.
      split; [exact E|]. exists []. now rewrite app_nil_r.
Qed.

Lemma firstn_4_app (c tail : bytes) :
  4 <= len c -> firstn 4 (c ++ tail) = firstn 4 c.
Proof.
  unfold len. intro H. rewrite firstn_app.
  replace (4 - length c)%nat with 0%nat by lia.
  cbn [firstn]. now rewrite app_nil_r.
Qed.

(** The loop on a script whose first chunk carries the whole length field. *)
Lemma header_first_loop (c : bytes) (evs rest : list RecvEvent) (res : bytes) :
  4 <= len c ->
  read_recv_loop (Chunk c :: evs) 4 [] = (rest, Ok res) ->
  res = [] \/
  (from_array (firstn 4 c) 4 <= MAX_IPC_SIZE /\
   from_array (firstn 4 c) 4 <= len res /\
   exists tail, res = c ++ tail).
Proof.
  intros Hc. rewrite header_chunk_step by exact Hc.
  destruct (MAX_IPC_SIZE <? from_array (firstn 4 c) 4) eqn:Ebig.
  - intro H. injection H as _ <-. now left.
  - apply Z.ltb_ge in Ebig.
    destruct (Z.eq_dec (from_array (firstn 4 c) 4) 4) as [E4 | Hne].
    + rewrite E4, read_recv_loop_eq.
      destruct (len c <? 4) eqn:E; [apply Z.ltb_lt in E; lia|].
      intro H. injection H as _ <-. right.
      split; [lia|]. split; [lia|]. exists []. now rewrite app_nil_r.
    + intro H. apply (read_recv_loop_fixed_length _ _ _ _ _ Hne) in H
        as [-> | [Hlen Htail]]; [now left|]. right. now repeat split.
Qed.

(** X11.  A response whose first chunk holds at least the four bytes of the
    length field is read to its declared length: when [read] returns, the
    bytes returned begin with that chunk, are at least as many as the length
    field declares, and the declared length is at most [MAX_IPC_SIZE]. *)
Theorem header_first_response_is_complete :
  forall (self : Pine) (tr : Transport) (ds : SizeArg) (address : Z)
         (c : bytes) (evs : list RecvEvent) (result : bytes),
    incoming tr = Chunk c :: evs ->
    4 <= len c ->
    outcome (read self tr ds address) = Ok result ->
    from_array (firstn 4 result) 4 = from_array (firstn 4 c) 4 /\
    from_array (firstn 4 result) 4 <= len result /\
    from_array (firstn 4 result) 4 <= MAX_IPC_SIZE /\
    exists tail, result = c ++ tail.
Proof.
  intros self tr ds address c evs result Hin Hc. unfold read.
  destruct (read_request ds address); [|discriminate].
  destruct (sendall_ok _ tr); [|discriminate].
  destruct (read_recv_loop (incoming tr) 4 []) as [rest [res|]] eqn:Hloop;
    [|discriminate].
  cbn [outcome bind]. intro Hchk.
  apply read_checks_ok_inv in Hchk as [-> [status [Hnth _]]].
  rewrite Hin in Hloop.
  apply (header_first_loop _ _ _ _ Hc) in Hloop
    as [-> | [Hmax [Hlen [tail ->]]]]; [discriminate Hnth|].
  rewrite (firstn_4_app _ _ Hc). repeat split; try assumption.
  now exists tail.
Qed.

Lemma header_first_response_is_complete_witness :
  incoming (healthy [Chunk [x09; x00; x00; x00; x00; xaa]; Chunk [xbb; xcc; xdd]])
    = Chunk [x09; x00; x00; x00; x00; xaa] :: [Chunk [xbb; xcc; xdd]] /\
  4 <= len [x09; x00; x00; x00; x00; xaa] /\
  outcome (read connected_client
             (healthy [Chunk [x09; x00; x00; x00; x00; xaa];
                       Chunk [xbb; xcc; xdd]]) (Member INT32) 0)
    = Ok sample_frame /\
  from_array (firstn 4 sample_frame) 4 <= len sample_frame.
Proof.
  split; [reflexivity|]. split; [cbn; lia|]. split; [reflexivity|].
  apply (header_first_response_is_complete connected_client
           (healthy [Chunk [x09; x00; x00; x00; x00; xaa];
                     Chunk [xbb; xcc; xdd]])
           (Member INT32) 0 [x09; x00; x00; x00; x00; xaa]
           [Chunk [xbb; xcc; xdd]] sample_frame);
    [reflexivity | cbn; lia | reflexivity].
Defined.

(** X12.  A response that one [recv] delivers whole.  On a connected client
    whose [sendall] succeeds, if the first [recv] returns at most 4096 bytes
    that hold a whole response (at least five bytes, at least as many as its
    length field declares) whose status is not FAIL, then [read] returns
    exactly those bytes, trailing bytes beyond the declared length included,
    [write] returns, and no second [recv] is made. *)
Theorem single_chunk_response :
  forall (self : Pine) (tr : Transport) (ds : SizeArg) (address data : Z)
         (rq wq frame : bytes) (evs : list RecvEvent) (status : byte),
    Connected self ->
    send_ok tr = true ->
    read_request ds address = Ok rq ->
    write_request ds address data = Ok wq ->
    incoming tr = Chunk frame :: evs ->
    len frame <= 4096 ->
    from_array (firstn 4 frame) 4 <= len frame ->
    nth_error frame 4 = Some status ->
    status <> xff ->
    read self tr ds address = mkCall self [rq] evs (Ok frame) /\
    write self tr ds address data = mkCall self [wq] evs (Ok tt).
Proof.
  intros self tr ds address data rq wq frame evs status
    Hconn Hsend Hrq Hwq Hin Hmax Hdecl Hnth Hstatus.
  destruct (nth_error_4_split _ _ Hnth) as [_ Hlen].
  assert (Hloop : read_recv_loop (incoming tr) 4 [] = (evs, Ok frame)).
  { rewrite Hin, header_chunk_step by lia.
    destruct (MAX_IPC_SIZE <? _) eqn:E;
      [apply Z.ltb_lt in E; unfold MAX_IPC_SIZE in E; lia|].
    rewrite read_recv_loop_eq.
    destruct (len frame <? _) eqn:E'; [apply Z.ltb_lt in E'; lia|].
    reflexivity. }
  assert (Hne : (byte_to_Z status =? IPCResult_value IPC_FAIL) = false).
  { apply Z.eqb_neq. intro E. apply Hstatus. now apply byte_to_Z_inj. }
  rewrite (read_on_connected _ _ _ _ _ Hrq Hconn Hsend).
  rewrite (write_on_connected _ _ _ _ _ _ Hwq Hconn Hsend).
  rewrite <- (recv_loops_agree (incoming tr) 4 []), Hloop.
  cbn [fst snd bind]. unfold read_checks, write_checks.
  rewrite Hnth, Hne.
  destruct (len frame =? 0) eqn:E0; [apply Z.eqb_eq in E0; lia|].
  now split.
Qed.

Lemma single_chunk_response_witness :
  Connected connected_client /\
  send_ok (healthy [Chunk (sample_frame ++ [x05]); TimedOut]) = true /\
  read_request (Member INT32) 0 = Ok (le_bytes 4 9 ++ [x02] ++ le_bytes 4 0) /\
  write_request (Member INT32) 0 7
    = Ok (le_bytes 4 13 ++ [x06] ++ le_bytes 4 0 ++ le_bytes 4 7) /\
  len (sample_frame ++ [x05]) <= 4096 /\
  from_array (firstn 4 (sample_frame ++ [x05])) 4 <= len (sample_frame ++ [x05]) /\
  nth_error (sample_frame ++ [x05]) 4 = Some x00 /\
  x00 <> xff /\
  read connected_client (healthy [Chunk (sample_frame ++ [x05]); TimedOut])
    (Member INT32) 0
    = mkCall connected_client [le_bytes 4 9 ++ [x02] ++ le_bytes 4 0]
        [TimedOut] (Ok (sample_frame ++ [x05])).
Proof.
  split; [split; reflexivity|]. do 3 (split; [reflexivity|]).
  split; [cbn; lia|]. split; [cbn; lia|]. split; [reflexivity|].
  split; [discriminate|].
  refine (proj1 (single_chunk_response connected_client
            (healthy [Chunk (sample_frame ++ [x05]); TimedOut])
            (Member INT32) 0 7 _ _ (sample_frame ++ [x05]) [TimedOut] x00
            (conj eq_refl eq_refl) eq_refl eq_refl eq_refl eq_refl
            _ _ eq_refl _)); [cbn; lia | cbn; lia | discriminate].
Defined.

(** X13.  A peer that closes in the middle of a response.  When the first
    chunk declares more bytes than it holds and the next [recv] returns no
    bytes, [read] and [write] raise "Invalid response": the bytes already
    received are dropped, the events after the empty read are left unread,
    and the client stays as it was. *)
Theorem peer_close_mid_response :
  forall (self : Pine) (tr : Transport) (ds : SizeArg) (address data : Z)
         (rq wq c : bytes) (evs : list RecvEvent),
    Connected self ->
    send_ok tr = true ->
    read_request ds address = Ok rq ->
    write_request ds address data = Ok wq ->
    incoming tr = Chunk c :: Chunk [] :: evs ->
    4 <= len c ->
    len c < from_array (firstn 4 c) 4 <= MAX_IPC_SIZE ->
    read self tr ds address
      = mkCall self [rq] evs (Err ConnectionError_invalid) /\
    write self tr ds address data
      = mkCall self [wq] evs (Err ConnectionError_invalid).
Proof.
  intros self tr ds address data rq wq c evs
    Hconn Hsend Hrq Hwq Hin Hc [Hshort Hmax].
  assert (Hloop : read_recv_loop (incoming tr) 4 [] = (evs, Ok [])).
  { rewrite Hin, header_chunk_step by exact Hc.
    destruct (MAX_IPC_SIZE <? _) eqn:E; [apply Z.ltb_lt in E; lia|].
    rewrite read_recv_loop_eq. apply Z.ltb_lt in Hshort.
    now rewrite Hshort. }
  rewrite (read_on_connected _ _ _ _ _ Hrq Hconn Hsend).
  rewrite (write_on_connected _ _ _ _ _ _ Hwq Hconn Hsend).
  rewrite <- (recv_loops_agree (incoming tr) 4 []), Hloop.
  now split.
Qed.

Lemma peer_close_mid_response_witness :
  Connected connected_client /\
  send_ok (healthy [Chunk [x09; x00; x00; x00]; Chunk []; Chunk [xaa]]) = true /\
  read_request (Member INT32) 0 = Ok (le_bytes 4 9 ++ [x02] ++ le_bytes 4 0) /\
  write_request (Member INT32) 0 7
    = Ok (le_bytes 4 13 ++ [x06] ++ le_bytes 4 0 ++ le_bytes 4 7) /\
  4 <= len [x09; x00; x00; x00] /\
  len [x09; x00; x00; x00] < from_array (firstn 4 [x09; x00; x00; x00]) 4
    <= MAX_IPC_SIZE /\
  read connected_client
    (healthy [Chunk [x09; x00; x00; x00]; Chunk []; Chunk [xaa]])
    (Member INT32) 0
    = mkCall connected_client [le_bytes 4 9 ++ [x02] ++ le_bytes 4 0]
        [Chunk [xaa]] (Err ConnectionError_invalid).
Proof.
  split; [split; reflexivity|]. do 3 (split; [reflexivity|]).
  split; [cbn; lia|]. split; [unfold MAX_IPC_SIZE; cbn; lia|].
  refine (proj1 (peer_close_mid_response connected_client
            (healthy [Chunk [x09; x00; x00; x00]; Chunk []; Chunk [xaa]])
            (Member INT32) 0 7 _ _ [x09; x00; x00; x00] [Chunk [xaa]]
            (conj eq_refl eq_refl) eq_refl eq_refl eq_refl eq_refl _ _));
    unfold MAX_IPC_SIZE; cbn; lia.
Defined.

Lemma first_chunk_is_prefix (c : bytes) (evs rest : list RecvEvent)
  (res : bytes) :
  read_recv_loop (Chunk c :: evs) 4 [] = (rest, Ok res) ->
  res = [] \/ exists tail, res = c ++ tail.
Proof.
  intro H. apply read_recv_loop_accumulates in H
    as [-> | [consumed [Hevs ->]]]; [now left|].
  destruct consumed as [|ev consumed]; [now left|].
  cbn [app] in Hevs. injection Hevs as <- _. right.
  now exists (received consumed).
Qed.

(** X14.  [IndexError] needs a short first chunk.  When the first [recv]
    returns at least five bytes, neither [read] nor [write] ever raises
    [IndexError], however the rest of the response arrives. *)
Theorem no_index_error_after_long_first_chunk :
  forall (self : Pine) (tr : Transport) (ds : SizeArg) (address data : Z)
         (c : bytes) (evs : list RecvEvent),
    incoming tr = Chunk c :: evs ->
    5 <= len c ->
    outcome (read self tr ds address) <> Err IndexError /\
    outcome (write self tr ds address data) <> Err IndexError.
Proof.
  intros self tr ds address data c evs Hin Hc.
  assert (Hres : forall rest res,
             read_recv_loop (incoming tr) 4 [] = (rest, Ok res) ->
             len res = 0 \/ exists status, nth_error res 4 = Some status).
  { intros rest res H. rewrite Hin in H.
    apply first_chunk_is_prefix in H as [-> | [tail ->]]; [now left|].
    right. destruct c as [|b0 [|b1 [|b2 [|b3 [|b4 c]]]]];
      try (unfold len in Hc; cbn [length] in Hc; lia).
    now exists b4. }
  split.
  - unfold read.
    destruct (read_request ds address) as [rq|e] eqn:Hrq.
    + destruct (sendall_ok _ tr); [|discriminate].
      destruct (read_recv_loop (incoming tr) 4 []) as [rest [res|e]] eqn:Hloop;
        cbn [outcome bind].
      * unfold read_checks.
        destruct (Hres _ _ eq_refl) as [H0 | [status Hnth]].
        -- rewrite H0. discriminate.
        -- rewrite Hnth. destruct (len res =? 0); [discriminate|].
           destruct (byte_to_Z status =? _); discriminate.
      * apply read_recv_loop_raises in Hloop as [-> | ->]; discriminate.
    + cbn [outcome]. intro H. injection H as ->.
      apply request_raises in Hrq as [H | H]; discriminate H.
  - unfold write.
    destruct (write_request ds address data) as [wq|e] eqn:Hwq.
    + destruct (sendall_ok _ tr); [|discriminate].
      rewrite <- (recv_loops_agree (incoming tr) 4 []).
      destruct (read_recv_loop (incoming tr) 4 []) as [rest [res|e]] eqn:Hloop;
        cbn [outcome bind].
      * unfold write_checks.
        destruct (Hres _ _ eq_refl) as [H0 | [status Hnth]].
        -- rewrite H0. discriminate.
        -- rewrite Hnth. destruct (len res =? 0); [discriminate|].
           destruct (byte_to_Z status =? _); discriminate.
      * apply read_recv_loop_raises in Hloop as [-> | ->]; discriminate.
    + cbn [outcome]. intro H. injection H as ->.
      destruct ds as [d|]; [|discriminate Hwq].
      unfold write_request in Hwq.
      assert (Hto : forall v s, to_array v s <> @Err bytes IndexError).
      { intros v s. unfold to_array.
        destruct ((v <? 0) || (2 ^ (8 * s) <=? v)); discriminate. }
      assert (Hcr : forall command size,
                 _create_request command address size <> Err IndexError).
      { intros command size. unfold _create_request.
        destruct (to_array size 4) eqn:E1;
          [|intro H; injection H as ->; now apply Hto in E1].
        destruct (to_array (IPCCommand_value command) 1) eqn:E2;
          [|intro H; injection H as ->; now apply Hto in E2].
        destruct (to_array address 4) eqn:E3; [discriminate|].
        intro H. injection H as ->. now apply Hto in E3. }
      destruct d;
        (destruct (_create_request _ address _) eqn:E;
         [|cbn [bind] in Hwq; injection Hwq as ->; now apply Hcr in E]);
        (destruct (to_array data _) eqn:E';
         [discriminate Hwq
         |cbn [bind] in Hwq; injection Hwq as ->; now apply Hto in E']).
Qed.

Lemma no_index_error_after_long_first_chunk_witness :
  incoming (healthy [Chunk [x09; x00; x00; x00; x00]; Chunk [xaa]])
    = Chunk [x09; x00; x00; x00; x00] :: [Chunk [xaa]] /\
  5 <= len [x09; x00; x00; x00; x00] /\
  outcome (read connected_client
             (healthy [Chunk [x09; x00; x00; x00; x00]; Chunk [xaa]])
             (Member INT32) 0) <> Err IndexError.
Proof.
  split; [reflexivity|]. split; [cbn; lia|].
  apply (no_index_error_after_long_first_chunk connected_client
           (healthy [Chunk [x09; x00; x00; x00; x00]; Chunk [xaa]])
           (Member INT32) 0 0 [x09; x00; x00; x00; x00] [Chunk [xaa]]);
    [reflexivity | cbn; lia].
Defined.

(** ** The endpoint *)

Module EndpointFacts.
Import Stdlib.Strings.String.
Import Endpoint.
Local Open Scope string_scope.

(** X15.  Which endpoint a client connects to.  On "Windows" it is the
    loopback address with the slot as port.  On every other platform it is
    a socket path ending in "/pcsx2.sock" that does not depend on the slot,
    so that clients of different slots meet on the same socket; with the
    runtime-directory variables unset the path is "/tmp/pcsx2.sock". *)
Theorem slot_only_matters_on_windows :
  forall (system : string) (environ : string -> option string)
         (self self' : Pine),
    (system = "Windows" ->
     socket_family_name system environ self
       = (AF_INET, HostPort "127.0.0.1" (_slot self))) /\
    (system <> "Windows" ->
     socket_family_name system environ self
       = socket_family_name system environ self' /\
     exists dir,
       socket_family_name system environ self
         = (AF_UNIX, Path (dir ++ "/pcsx2.sock"))) /\
    (system <> "Windows" ->
     environ "XDG_RUNTIME_DIR" = None -> environ "TMPDIR" = None ->
     socket_family_name system environ self
       = (AF_UNIX, Path "/tmp/pcsx2.sock")).
Proof.
  intros system environ self self'. unfold socket_family_name, environ_get.
  split; [|split].
  - intros ->. reflexivity.
  - intro Hne. apply eqb_neq in Hne. rewrite Hne.
    split; [reflexivity|].
    destruct (system =? "Linux"); [eexists; reflexivity|].
    destruct (system =? "Darwin"); [eexists; reflexivity|].
    now exists "/tmp".
  - intros Hne Hxdg Htmp. apply eqb_neq in Hne. rewrite Hne, Hxdg, Htmp.
    destruct (system =? "Linux"); [reflexivity|].
    now destruct (system =? "Darwin").
Qed.

Lemma slot_only_matters_on_windows_witness :
  "Linux" <> "Windows" /\
  socket_family_name "Linux"
    (fun key => if key =? "XDG_RUNTIME_DIR" then Some "/run/user/1000" else None)
    (mkPine 1 Unset false)
  = socket_family_name "Linux"
      (fun key => if key =? "XDG_RUNTIME_DIR" then Some "/run/user/1000" else None)
      (mkPine 2 Unset false) /\
  exists dir,
    socket_family_name "Linux"
      (fun key => if key =? "XDG_RUNTIME_DIR" then Some "/run/user/1000" else None)
      (mkPine 1 Unset false)
    = (AF_UNIX, Path (dir ++ "/pcsx2.sock")).
Proof.
  split; [discriminate|].
  apply (slot_only_matters_on_windows "Linux"
           (fun key => if key =? "XDG_RUNTIME_DIR" then Some "/run/user/1000"
                       else None)
           (mkPine 1 Unset false) (mkPine 2 Unset false)).
  discriminate.
Defined.

End EndpointFacts.
